(** * Contest leaderboard and eligibility engine

    A shallow embedding of the [Contest] model of
    [src/ruby/ror/ror-example-with-active-admin.rb] (eligibility filter,
    activity aggregation, scoring, ranking, leaderboard cache, participant
    search) together with the properties its specification states.

    Relations returned by ActiveRecord are lists of rows, joins are list
    comprehensions, a SQL row count is the length of the joined relation.  The
    key-value cache is a finite map and the Resque queue a list of jobs,
    both threaded explicitly through the two methods that touch them. *)

From Stdlib Require Import ZArith Ascii String List Sorted Permutation Lia.
From stdpp Require Import base decidable option list sorting strings gmap pretty.

Local Open Scope string_scope.
Local Open Scope Z_scope.

#[local] Set Warnings "-clear-no-such-hyp".

(** ** What the database adapter decides

    Three behaviours used by the queries are fixed by the database and its
    adapter, not by the model: the integer cast ActiveRecord applies to the
    strings bound in [User.where(id: list_ids)], the collation that
    [ORDER BY] uses on text columns, and the case folding of [ILIKE]. *)

Class Adapter := {
  cast_integer : string → Z;
  text_le : string → string → bool;
  fold_case : ascii → ascii
}.

(** A collation is a total preorder on text. *)
Class Collation (A : Adapter) := {
  text_le_total : ∀ s t, text_le s t = true ∨ text_le t s = true;
  text_le_trans : ∀ s t u, text_le s t = true → text_le t u = true → text_le s u = true
}.

(** ** Tables *)

Record Profile := {
  profile_id : Z;
  profile_user_id : Z;
  organization_name : string;
  city : string;
  zipcode : string;
  region_id : option Z;
  organization_type_id : option Z
}.

Record User := {
  user_id : Z;
  first_name : string;
  last_name : string;
  current_profile : Z          (* id of [u.current_profile] *)
}.

Record Region := {
  region_pk : Z;
  region_code : string
}.

Record Collection := {
  collection_id : Z;
  collection_profile_id : Z;
  brigade_id : Z;
  collection_active : bool     (* membership in the [Collection.active] scope *)
}.

(** A shipment reaches its collection through its label request. *)
Record Shipment := {
  shipment_created_at : Z;
  shipment_collection_id : Z;
  units_collected : option Z
}.

Record ContestEmail := {
  contest_email_id : Z;
  verified : bool
}.

Record ContestVote := {
  vote_contest_id : Z;
  vote_profile_id : Z;
  vote_contest_email_id : Z;
  vote_created_at : Z
}.

(** [first_day] and [last_day] are dates (day numbers); the habtm
    associations [select_options], [regions] and [brigades] are kept as the
    ids they pluck. *)
Record Contest := {
  id : Z;
  first_day : Z;
  last_day : Z;
  credits_by_shipment : Z;
  credits_by_vote : Z;
  credits_by_unit : Z;
  users_list_ids : string;
  users_list_white : bool;
  select_options : list Z;
  regions : list Z;
  brigade_ids : list Z;
  leaderboard_enabled : bool;
  leaderboard_display_address : bool
}.

(** The rows visible to the queries; [profiles] is
    [Country.current.profiles]. *)
Record Database := {
  profiles : list Profile;
  users : list User;
  region_table : list Region;
  collections : list Collection;
  shipments : list Shipment;
  contest_emails : list ContestEmail;
  contest_votes : list ContestVote
}.

(** A row of [raw_numbers]: the selected columns and the three correlated
    counts. *)
Record RawNumbers := {
  row_id : Z;
  row_organization_name : string;
  row_first_name : string;
  row_last_name : string;
  row_city : string;
  row_region_code : option string;
  row_zipcode : string;
  vote_count : Z;
  shipment_count : Z;
  units_count : Z
}.

(** A row of [leaderboard_scope]: every column of [raw_numbers] and
    [credits]. *)
Record LeaderboardRow := {
  numbers : RawNumbers;
  credits : Z
}.

(** The [OpenStruct] built by [calculate_ranks]: the row's attributes merged
    with [rank]. *)
Record RankedEntry := {
  entry_row : LeaderboardRow;
  rank : Z
}.

#[global] Instance Profile_eq_dec : EqDecision Profile.
Proof. solve_decision. Defined.
#[global] Instance Region_eq_dec : EqDecision Region.
Proof. solve_decision. Defined.
#[global] Instance User_eq_dec : EqDecision User.
Proof. solve_decision. Defined.
#[global] Instance Collection_eq_dec : EqDecision Collection.
Proof. solve_decision. Defined.
#[global] Instance Shipment_eq_dec : EqDecision Shipment.
Proof. solve_decision. Defined.
#[global] Instance ContestEmail_eq_dec : EqDecision ContestEmail.
Proof. solve_decision. Defined.
#[global] Instance ContestVote_eq_dec : EqDecision ContestVote.
Proof. solve_decision. Defined.
#[global] Instance RawNumbers_eq_dec : EqDecision RawNumbers.
Proof. solve_decision. Defined.
#[global] Instance LeaderboardRow_eq_dec : EqDecision LeaderboardRow.
Proof. solve_decision. Defined.
#[global] Instance RankedEntry_eq_dec : EqDecision RankedEntry.
Proof. solve_decision. Defined.

(** ** Rank assignment *)

(** The body of the [map] block of [calculate_ranks]: [index] is the
    position handed out by [each_with_index], [current_credits] and
    [current_rank] are the two locals the block assigns. *)
Fixpoint calculate_ranks_from (index current_credits current_rank : Z)
    (lb : list LeaderboardRow) : list RankedEntry :=
  match lb with
  | [] => []
  | profile :: rest =>
      let '(current_rank, current_credits) :=
        if decide (credits profile ≠ current_credits)
        then (index + 1, credits profile)
        else (current_rank, current_credits) in
      {| entry_row := profile; rank := current_rank |}
        :: calculate_ranks_from (index + 1) current_credits current_rank rest
  end.

Definition calculate_ranks (lb : list LeaderboardRow) : list RankedEntry :=
  calculate_ranks_from 0 (-1) (-1) lb.

(** ** The listed users *)

Definition delete_char (c : ascii) (s : list ascii) : list ascii :=
  filter (λ x, x ≠ c) s.

Fixpoint split_on (sep : ascii) (s : list ascii) : list (list ascii) :=
  match s with
  | [] => [[]]
  | c :: s' =>
      if decide (c = sep) then [] :: split_on sep s'
      else match split_on sep s' with
           | [] => [[c]]
           | w :: ws => (c :: w) :: ws
           end
  end.

(** [String#split] with a string separator drops the empty fields at the
    end: the blank string splits into no field at all. *)
Definition drop_trailing_empty (ws : list (list ascii)) : list (list ascii) :=
  foldr (λ w acc, match w, acc with [], [] => [] | _, _ => w :: acc end) [] ws.

Definition ruby_split (sep : ascii) (s : list ascii) : list (list ascii) :=
  drop_trailing_empty (split_on sep s).

(** [users_list_ids.delete(' ').split(',')] *)
Definition list_ids (c : Contest) : list string :=
  string_of_list_ascii <$>
    ruby_split "," (delete_char " " (list_ascii_of_string (users_list_ids c))).

(** [User.where(id: list_ids)] *)
Definition listed_users `{Adapter} (c : Contest) (db : Database) : list User :=
  filter (λ u, user_id u ∈ cast_integer <$> list_ids c) (users db).

(** ** Eligibility *)

(** The two Arel predicates on [profiles.id] that [filter_by_list_ids]
    builds. *)
Inductive ArelNode :=
  | arel_in (ids : list Z)
  | arel_not_in (ids : list Z).

Definition arel_holds (n : ArelNode) (p : Profile) : bool :=
  match n with
  | arel_in ids => bool_decide (profile_id p ∈ ids)
  | arel_not_in ids => bool_decide (profile_id p ∉ ids)
  end.

(** [None] is the [nil] returned when the list is blank. *)
Definition filter_by_list_ids `{Adapter} (c : Contest) (db : Database)
    : option ArelNode :=
  match list_ids c with
  | [] => None
  | _ :: _ =>
      let profile_ids := current_profile <$> listed_users c db in
      if users_list_white c
      then Some (arel_in profile_ids)        (* whitelist *)
      else Some (arel_not_in profile_ids)    (* blacklist *)
  end.

(** [scope.where(cond)]; [where(nil)] adds no condition. *)
Definition where_node (cond : option ArelNode) (scope : list Profile)
    : list Profile :=
  match cond with
  | None => scope
  | Some n => filter (λ p, arel_holds n p) scope
  end.

(** [where(column: ids)] on a nullable column: a NULL is in no list. *)
Definition column_in (v : option Z) (ids : list Z) : bool :=
  match v with
  | Some x => bool_decide (x ∈ ids)
  | None => false
  end.

(** *** Ordering of relations *)

(** [x] is not placed after [y] by the comparison. *)
Definition not_after {A : Type} (cmp : A → A → comparison) : relation A :=
  λ x y, cmp x y ≠ Gt.

#[global] Instance not_after_dec {A : Type} (cmp : A → A → comparison) x y :
  Decision (not_after cmp x y).
Proof. unfold not_after. apply _. Defined.

(** [ORDER BY]: the rows sorted by the comparison of their keys. *)
Definition order_by {A : Type} (cmp : A → A → comparison) (l : list A) : list A :=
  merge_sort (not_after cmp) l.

(** Three-way comparison of two text values under the collation. *)
Definition text_cmp `{Adapter} (s t : string) : comparison :=
  if text_le s t then (if text_le t s then Eq else Lt) else Gt.

(** A nullable text column in ascending order: NULLs come last. *)
Definition nullable_text_cmp `{Adapter} (s t : option string) : comparison :=
  match s, t with
  | Some s, Some t => text_cmp s t
  | Some _, None => Lt
  | None, Some _ => Gt
  | None, None => Eq
  end.

(** The next key of an [ORDER BY] list decides only when the previous ones
    tie. *)
Definition then_by (c1 c2 : comparison) : comparison :=
  match c1 with
  | Eq => c2
  | _ => c1
  end.

(** ['profiles.organization_name', 'profiles.city', 'profiles.zipcode'] *)
Definition profile_order `{Adapter} (p q : Profile) : comparison :=
  then_by (text_cmp (organization_name p) (organization_name q))
    (then_by (text_cmp (city p) (city q))
       (text_cmp (zipcode p) (zipcode q))).

Definition allowed_profiles `{Adapter} (c : Contest) (db : Database)
    : list Profile :=
  let scope := where_node (filter_by_list_ids c db) (profiles db) in
  let scope :=
    if users_list_white c then scope
    else
      let scope :=
        if decide (select_options c ≠ [])
        then filter (λ p, column_in (organization_type_id p) (select_options c)) scope
        else scope in
      if decide (regions c ≠ [])
      then filter (λ p, column_in (region_id p) (regions c)) scope
      else scope in
  order_by profile_order scope.

(** [Collection.active.where(brigade_id: brigade_ids)] *)
Definition allowed_collection (c : Contest) (col : Collection) : bool :=
  collection_active col && bool_decide (brigade_id col ∈ brigade_ids c).

Definition allowed_collections (c : Contest) (db : Database) : list Collection :=
  filter (λ col, allowed_collection c col) (collections db).

(** A row of the join built by [contestant_list]. *)
Record Contestant := {
  c_profile : Profile;
  c_region : option Region;
  c_user : User;
  c_collection : Collection
}.

#[global] Instance Contestant_eq_dec : EqDecision Contestant.
Proof. solve_decision. Defined.

(** [LEFT JOIN regions ON regions.id = profiles.region_ID] *)
Definition left_join_regions (db : Database) (p : Profile) : list (option Region) :=
  match filter (λ r, region_id p = Some (region_pk r)) (region_table db) with
  | [] => [None]
  | rs => Some <$> rs
  end.

Definition contestant_list `{Adapter} (c : Contest) (db : Database)
    : list Contestant :=
  p ← allowed_profiles c db;
  r ← left_join_regions db p;
  u ← filter (λ u, user_id u = profile_user_id p) (users db);
  col ← filter (λ col, collection_profile_id col = profile_id p)
        (allowed_collections c db);
  [ {| c_profile := p; c_region := r; c_user := u; c_collection := col |} ].

(** ** Activity aggregation *)

(** [Date#in_time_zone]: midnight of the day, in seconds.  [1.day] is
    [day]. *)
Definition day : Z := 86400.
Definition in_time_zone (date : Z) : Z := day * date.

(** [first_day.in_time_zone..last_day.in_time_zone + offset], a closed
    range given by its two ends. *)
Definition interval_in_time_zone (c : Contest) (offset : Z) : Z * Z :=
  (in_time_zone (first_day c), in_time_zone (last_day c) + offset).

(** [where(created_at: range)] is [BETWEEN]: both ends belong. *)
Definition cover (range : Z * Z) (t : Z) : bool :=
  bool_decide (range.1 ≤ t) && bool_decide (t ≤ range.2).

(** Votes of the contest joined with their verified e-mail. *)
Definition active_contest_votes (c : Contest) (db : Database)
    : list (ContestVote * ContestEmail) :=
  v ← contest_votes db;
  e ← filter (λ e, contest_email_id e = vote_contest_email_id v) (contest_emails db);
  if bool_decide (vote_contest_id v = id c)
     && verified e
     && cover (interval_in_time_zone c day) (vote_created_at v)
  then [(v, e)] else [].

(** Shipments joined with their collection, merged with
    [allowed_collections]. *)
Definition allowed_shipments (c : Contest) (db : Database)
    : list (Shipment * Collection) :=
  s ← filter (λ s, cover (interval_in_time_zone c day) (shipment_created_at s))
        (shipments db);
  col ← filter (λ col, collection_id col = shipment_collection_id s)
        (allowed_collections c db);
  [(s, col)].

(** [COALESCE(sum(units_collected), 0)]: NULLs are skipped by the sum. *)
Definition sum_units (rows : list (Shipment * Collection)) : Z :=
  foldr (λ r acc, default 0 (units_collected r.1) + acc) 0 rows.

Definition profile_votes (c : Contest) (db : Database) (pid : Z) :=
  filter (λ r, vote_profile_id r.1 = pid) (active_contest_votes c db).

Definition profile_shipments (c : Contest) (db : Database) (pid : Z) :=
  filter (λ r, collection_profile_id r.2 = pid) (allowed_shipments c db).

(** The select list of [raw_numbers] for one joined row. *)
Definition raw_numbers_row (c : Contest) (db : Database) (r : Contestant)
    : RawNumbers :=
  let pid := profile_id (c_profile r) in
  {| row_id := pid;
     row_organization_name := organization_name (c_profile r);
     row_first_name := first_name (c_user r);
     row_last_name := last_name (c_user r);
     row_city := city (c_profile r);
     row_region_code := region_code <$> c_region r;
     row_zipcode := zipcode (c_profile r);
     vote_count := Z.of_nat (length (profile_votes c db pid));
     shipment_count := Z.of_nat (length (profile_shipments c db pid));
     units_count := sum_units (profile_shipments c db pid) |}.

(** The [group] clause lists every selected column, so grouping keeps one
    row per distinct selection. *)
Definition raw_numbers `{Adapter} (c : Contest) (db : Database)
    : list RawNumbers :=
  remove_dups (raw_numbers_row c db <$> contestant_list c db).

(** ** Scoring and ordering *)

(** The computed column of [leaderboard_scope]. *)
Definition credits_of (c : Contest) (n : RawNumbers) : Z :=
  credits_by_shipment c * shipment_count n
  + credits_by_vote c * vote_count n
  + credits_by_unit c * units_count n.

(** The keys after [credits desc]:
    [organization_name, city, region_code, zipcode]. *)
Definition tie_break_order `{Adapter} (p q : RawNumbers) : comparison :=
  then_by (text_cmp (row_organization_name p) (row_organization_name q))
    (then_by (text_cmp (row_city p) (row_city q))
       (then_by (nullable_text_cmp (row_region_code p) (row_region_code q))
          (text_cmp (row_zipcode p) (row_zipcode q)))).

(** ['credits desc, organization_name, city, region_code, zipcode'] *)
Definition leaderboard_order `{Adapter} (p q : LeaderboardRow) : comparison :=
  then_by (Z.compare (credits q) (credits p))
    (tie_break_order (numbers p) (numbers q)).

Definition leaderboard_scope `{Adapter} (c : Contest) (db : Database)
    : list LeaderboardRow :=
  order_by leaderboard_order
    ((λ n, {| numbers := n; credits := credits_of c n |}) <$> raw_numbers c db).

Definition leaderboard_calc `{Adapter} (c : Contest) (db : Database)
    : list RankedEntry :=
  calculate_ranks (leaderboard_scope c db).

(** ** Participant search *)

(** [LIKE] with case folding.  [%] stands for any run of characters, [_]
    for any one character, and a backslash takes the next character of
    the pattern literally; a pattern ending in a lone backslash matches
    nothing. *)
Fixpoint ilike `{Adapter} (pattern : list ascii) : list ascii → bool :=
  let literal (c : ascii) (continue : list ascii → bool) (s : list ascii) :=
    match s with
    | [] => false
    | d :: s' => bool_decide (fold_case c = fold_case d) && continue s'
    end in
  match pattern with
  | [] => λ s, match s with [] => true | _ :: _ => false end
  | c :: pattern' =>
      if decide (c = "%"%char) then
        fix any (s : list ascii) : bool :=
          ilike pattern' s
          || match s with [] => false | _ :: s' => any s' end
      else if decide (c = "_"%char) then
        λ s, match s with [] => false | _ :: s' => ilike pattern' s' end
      else if decide (c = "\"%char) then
        match pattern' with
        | [] => λ _, false
        | c' :: pattern'' => literal c' (ilike pattern'')
        end
      else literal c (ilike pattern')
  end.

Definition ILIKE `{Adapter} (value pattern : string) : bool :=
  ilike (list_ascii_of_string pattern) (list_ascii_of_string value).

(** [CONCAT(users.first_name, ' ', users.last_name)] *)
Definition full_name (u : User) : string :=
  first_name u +:+ " " +:+ last_name u.

(** The [where] clause of [participant_search]; a NULL region code makes
    its disjunct unknown, which does not select the row. *)
Definition search_condition `{Adapter} (r : Contestant) (query : string) : bool :=
  ILIKE (organization_name (c_profile r)) query
  || ILIKE (full_name (c_user r)) query
  || ILIKE (zipcode (c_profile r)) query
  || ILIKE (city (c_profile r)) query
  || from_option (λ reg, ILIKE (region_code reg) query) false (c_region r).

Definition participant_search `{Adapter} (c : Contest) (db : Database)
    (query : string) : list Profile :=
  take 5
    (remove_dups
       (c_profile <$>
          filter (λ r, search_condition r ("%" +:+ query +:+ "%"))
            (contestant_list c db))).

(** [ActiveRecord::Base.sanitize_sql_like]: the escape character, [%] and
    [_] are each prefixed with the escape character. *)
Fixpoint sanitize_sql_like_chars (s : list ascii) : list ascii :=
  match s with
  | [] => []
  | c :: s' =>
      if bool_decide (c = "\"%char ∨ c = "%"%char ∨ c = "_"%char)
      then "\"%char :: c :: sanitize_sql_like_chars s'
      else c :: sanitize_sql_like_chars s'
  end.

Definition sanitize_sql_like (s : string) : string :=
  string_of_list_ascii (sanitize_sql_like_chars (list_ascii_of_string s)).

(** [ContestsController#participants]: the rows handed to the serializer. *)
Definition participants `{Adapter} (c : Contest) (db : Database)
    (query : string) : list Profile :=
  participant_search c db (sanitize_sql_like query).

(** ** Leaderboard cache and recompute queue *)

Inductive Job :=
  | ContestGenerateLeaderboard (contest_id : Z).

#[global] Instance Job_eq_dec : EqDecision Job.
Proof. solve_decision. Defined.

(** What the two cache methods read and write: [Country.current.code],
    the entries of [Rails.cache] and the jobs pushed by
    [Resque.enqueue], oldest first. *)
Record World := {
  country_code : string;
  rails_cache : gmap string (list RankedEntry);
  resque : list Job
}.

Definition leaderboard_cache_key (w : World) (c : Contest) : string :=
  country_code w +:+ "_contest/" +:+ pretty (id c) +:+ "/leaderboard".

Definition enqueue (j : Job) (w : World) : World :=
  {| country_code := country_code w;
     rails_cache := rails_cache w;
     resque := resque w ++ [j] |}.

Definition invalidate_leaderboard (c : Contest) (w : World) : World :=
  if leaderboard_display_address c
  then enqueue (ContestGenerateLeaderboard (id c)) w
  else w.

(** The value returned and the world left behind. *)
Definition leaderboard (c : Contest) (w : World) : list RankedEntry * World :=
  match rails_cache w !! leaderboard_cache_key w c with
  | Some entries => (entries, w)
  | None => ([], invalidate_leaderboard c w)
  end.

(** ** A concrete adapter

    The instance used to run the model: decimal integer cast (leading
    digits, anything else is 0, as [String#to_i]), byte-wise collation
    (the [C] locale) and ASCII case folding. *)

Definition digit_value (c : ascii) : option Z :=
  let n := Z.of_N (N_of_ascii c) in
  if bool_decide (48 ≤ n ≤ 57) then Some (n - 48) else None.

Fixpoint leading_digits (acc : Z) (s : list ascii) : Z :=
  match s with
  | [] => acc
  | c :: s' =>
      match digit_value c with
      | Some d => leading_digits (10 * acc + d) s'
      | None => acc
      end
  end.

Definition string_to_i (s : string) : Z :=
  match list_ascii_of_string s with
  | "-"%char :: s' => - leading_digits 0 s'
  | s' => leading_digits 0 s'
  end.

Definition ascii_downcase (c : ascii) : ascii :=
  let n := N_of_ascii c in
  if bool_decide (65 ≤ n ≤ 90)%N then ascii_of_N (n + 32) else c.

Definition c_locale : Adapter :=
  {| cast_integer := string_to_i;
     text_le := String.leb;
     fold_case := ascii_downcase |}.

(** *** Laws of the comparisons *)

(** The comparisons [ORDER BY] is given: reversing the arguments reverses
    the outcome, each outcome is transitive, and rows that compare equal
    compare alike with every other row. *)
Class Comparator {A : Type} (cmp : A → A → comparison) := {
  cmp_opp x y : cmp y x = CompOpp (cmp x y);
  cmp_trans c x y z : cmp x y = c → cmp y z = c → cmp x z = c;
  cmp_eq_l x y z : cmp x y = Eq → cmp x z = cmp y z
}.

Arguments cmp_opp {A} cmp {_} x y.
Arguments cmp_trans {A} cmp {_} c x y z.
Arguments cmp_eq_l {A} cmp {_} x y z.

(** ** Vocabulary of the specification *)

(** Credits descending, as [ORDER BY credits desc] leaves the rows. *)
Definition credits_desc (p q : LeaderboardRow) : Prop := credits q ≤ credits p.

(** The scoring window in the specification's words:
    [[asOf - windowSize, asOf + slack]]. *)
Definition spec_scoring_window (as_of window_size slack t : Z) : Prop :=
  as_of - window_size ≤ t ≤ as_of + slack.

(** The same contest in the other eligibility mode. *)
Definition with_mode (white : bool) (c : Contest) : Contest :=
  {| id := id c; first_day := first_day c; last_day := last_day c;
     credits_by_shipment := credits_by_shipment c;
     credits_by_vote := credits_by_vote c;
     credits_by_unit := credits_by_unit c;
     users_list_ids := users_list_ids c;
     users_list_white := white;
     select_options := select_options c;
     regions := regions c;
     brigade_ids := brigade_ids c;
     leaderboard_enabled := leaderboard_enabled c;
     leaderboard_display_address := leaderboard_display_address c |}.

(** The profile is the current profile of a listed user. *)
Definition listed `{Adapter} (c : Contest) (db : Database) (p : Profile) : Prop :=
  profile_id p ∈ current_profile <$> listed_users c db.

#[global] Instance listed_dec `{Adapter} c db p : Decision (listed c db p).
Proof. unfold listed. apply _. Defined.

(** [needle] occurs in [hay] up to case. *)
Definition contains_ci `{Adapter} (hay needle : string) : Prop :=
  ∃ before mid after : list ascii,
    list_ascii_of_string hay = (before ++ mid ++ after)%list
    ∧ fold_case <$> mid = fold_case <$> list_ascii_of_string needle.

(** Case-insensitive ascending order of two text values: the collation
    applied to the folded texts. *)
Definition fold_text `{Adapter} (s : string) : string :=
  string_of_list_ascii (fold_case <$> list_ascii_of_string s).

Definition ci_text_cmp `{Adapter} (s t : string) : comparison :=
  text_cmp (fold_text s) (fold_text t).

(** Ascending order on a list of keys, given the comparison of each key
    of two rows: a key decides when the keys before it tie. *)
Fixpoint in_order (keys : list comparison) : Prop :=
  match keys with
  | [] => True
  | k :: keys' => k = Lt ∨ (k = Eq ∧ in_order keys')
  end.

(** Recompute jobs of a contest waiting in the queue. *)
Definition pending_recomputes (c : Contest) (w : World) : nat :=
  length (filter (λ j, j = ContestGenerateLeaderboard (id c)) (resque w)).

(** ** Examples *)

Definition row_with_credits (n : Z) : LeaderboardRow :=
  {| numbers :=
       {| row_id := 0; row_organization_name := ""; row_first_name := "";
          row_last_name := ""; row_city := ""; row_region_code := None;
          row_zipcode := ""; vote_count := 0; shipment_count := 0;
          units_count := 0 |};
     credits := n |}.

(** A contest running from day 0 to day 10 with weights 5, 1 and 3. *)
Definition sample_contest (listed : string) (white : bool) (region_ids : list Z)
    (display_address : bool) : Contest :=
  {| id := 7; first_day := 0; last_day := 10;
     credits_by_shipment := 5; credits_by_vote := 1; credits_by_unit := 3;
     users_list_ids := listed; users_list_white := white;
     select_options := []; regions := region_ids; brigade_ids := [1];
     leaderboard_enabled := true;
     leaderboard_display_address := display_address |}.

(** The same contest with every weight 0. *)
Definition unweighted_contest : Contest :=
  {| id := 7; first_day := 0; last_day := 10;
     credits_by_shipment := 0; credits_by_vote := 0; credits_by_unit := 0;
     users_list_ids := ""; users_list_white := false;
     select_options := []; regions := []; brigade_ids := [1];
     leaderboard_enabled := true; leaderboard_display_address := false |}.

Definition sample_profile (pid uid : Z) (org town : string) (region : option Z)
    : Profile :=
  {| profile_id := pid; profile_user_id := uid; organization_name := org;
     city := town; zipcode := "10001"; region_id := region;
     organization_type_id := None |}.

Definition apple : Profile := sample_profile 11 1 "apple" "Troy" (Some 5).
Definition banana : Profile := sample_profile 12 2 "Banana" "Albany" (Some 9).
Definition cherry : Profile := sample_profile 13 3 "cherry" "Albany" None.

Definition sample_vote : ContestVote :=
  {| vote_contest_id := 7; vote_profile_id := 12; vote_contest_email_id := 1;
     vote_created_at := 2 * day |}.

Definition sample_email : ContestEmail :=
  {| contest_email_id := 1; verified := true |}.

Definition sample_collection (cid pid : Z) : Collection :=
  {| collection_id := cid; collection_profile_id := pid; brigade_id := 1;
     collection_active := true |}.

Definition sample_db : Database :=
  {| profiles := [apple; banana; cherry];
     users := [ {| user_id := 1; first_name := "John"; last_name := "Smith";
                   current_profile := 11 |};
                {| user_id := 2; first_name := "Ann"; last_name := "Lee";
                   current_profile := 12 |};
                {| user_id := 3; first_name := "Bob"; last_name := "Ray";
                   current_profile := 13 |} ];
     region_table := [ {| region_pk := 5; region_code := "NY" |} ];
     collections := [ sample_collection 100 11; sample_collection 101 12;
                      sample_collection 102 12; sample_collection 103 13 ];
     shipments := [ {| shipment_created_at := 5 * day;
                       shipment_collection_id := 100;
                       units_collected := Some 2 |} ];
     contest_emails := [ sample_email ];
     contest_votes := [ sample_vote ] |}.

(** Two contestants that differ in organization name and city only. *)
Definition two_contestants_db (org1 town1 org2 town2 : string) : Database :=
  {| profiles := [ sample_profile 1 1 org1 town1 None;
                   sample_profile 2 2 org2 town2 None ];
     users := [ {| user_id := 1; first_name := ""; last_name := "";
                   current_profile := 1 |};
                {| user_id := 2; first_name := ""; last_name := "";
                   current_profile := 2 |} ];
     region_table := [];
     collections := [ sample_collection 100 1; sample_collection 101 2 ];
     shipments := [];
     contest_emails := [];
     contest_votes := [] |}.

Definition sample_world (cached : gmap string (list RankedEntry)) : World :=
  {| country_code := "us"; rails_cache := cached; resque := [] |}.

(** ** Further methods of the model *)

#[global] Instance Contest_eq_dec : EqDecision Contest.
Proof. solve_decision. Defined.

(** *** Scopes on the dates of a contest *)

(** [where('first_day <= ? and last_day >= ?', date, date)] *)
Definition active (date : Z) (scope : list Contest) : list Contest :=
  filter (λ c, first_day c <= date ∧ last_day c >= date) scope.

(** [where('last_day < ?', date)] *)
Definition finished (date : Z) (scope : list Contest) : list Contest :=
  filter (λ c, last_day c < date) scope.

(** [where('first_day > ?', date)] *)
Definition upcoming (date : Z) (scope : list Contest) : list Contest :=
  filter (λ c, first_day c > date) scope.

(** *** Validations *)

(** An entry of [errors]: the attribute, the key of the translated
    message and what the message is completed with. *)
Record ValidationError := {
  attribute : string;
  message_key : string;
  details : list string
}.

(** [correct_start_end_order?] on the two dates as they are before the
    record is saved ([None] is [nil]). *)
Definition correct_start_end_order (first last : option Z)
    : list ValidationError :=
  match last, first with
  | Some l, Some f =>
      if decide (l ≤ f)
      then [ {| attribute := "last_day";
                message_key := "contest.attributes.last_day.numericality";
                details := [] |} ]
      else []
  | _, _ => []
  end.

(** [String#blank?] of ActiveSupport is
    [empty? || BLANK_RE.match?(self)] with
    [BLANK_RE = /\A[[:space:]]*\z/].  The text is UTF-8, as Rails keeps
    it, and a [string] holds its bytes. *)
Definition bytes (s : string) : list N :=
  N_of_ascii <$> list_ascii_of_string s.

Definition between (lo hi b : N) : bool := ((lo <=? b) && (b <=? hi))%N.

(** The characters of a UTF-8 text, by the table of well-formed byte
    sequences of the Unicode standard (no overlong form, no surrogate,
    nothing beyond U+10FFFF); [None] for bytes that are no UTF-8 text. *)
Fixpoint code_points (text : list N) : option (list N) :=
  match text with
  | [] => Some []
  | b0 :: rest =>
      if (b0 <? 128)%N then cons b0 <$> code_points rest
      else
        match rest with
        | [] => None
        | b1 :: rest1 =>
            if between 194 223 b0
            then
              if between 128 191 b1
              then cons ((b0 - 192) * 64 + (b1 - 128))%N <$> code_points rest1
              else None
            else
              match rest1 with
              | [] => None
              | b2 :: rest2 =>
                  if between 224 239 b0
                  then
                    if between (if (b0 =? 224)%N then 160 else 128)
                               (if (b0 =? 237)%N then 159 else 191) b1
                       && between 128 191 b2
                    then cons ((b0 - 224) * 4096 + (b1 - 128) * 64
                               + (b2 - 128))%N
                         <$> code_points rest2
                    else None
                  else
                    match rest2 with
                    | [] => None
                    | b3 :: rest3 =>
                        if between 240 244 b0
                           && between (if (b0 =? 240)%N then 144 else 128)
                                      (if (b0 =? 244)%N then 143 else 191) b1
                           && between 128 191 b2
                           && between 128 191 b3
                        then cons ((b0 - 240) * 262144 + (b1 - 128) * 4096
                                   + (b2 - 128) * 64 + (b3 - 128))%N
                             <$> code_points rest3
                        else None
                    end
              end
        end
  end.

(** [[[:space:]]] on Unicode text: tab to carriage return, space, next
    line (U+0085), and the separators of spaces, lines and paragraphs
    (U+00A0, U+1680, U+2000 to U+200A, U+2028, U+2029, U+202F, U+205F,
    U+3000). *)
Definition is_space (ch : N) : bool :=
  (between 9 13 ch || (ch =? 32) || (ch =? 133) || (ch =? 160)
   || (ch =? 5760) || between 8192 8202 ch || between 8232 8233 ch
   || (ch =? 8239) || (ch =? 8287) || (ch =? 12288))%N.

(** [None] is the [ArgumentError] (invalid byte sequence in UTF-8) that
    the match raises on a text that is no UTF-8. *)
Definition blank (s : string) : option bool :=
  forallb is_space <$> code_points (bytes s).

(** [list_ids - User.where(id: list_ids).map { |user| user.id.to_s }] *)
Definition wrong_ids `{Adapter} (c : Contest) (db : Database) : list string :=
  list_difference (list_ids c) ((λ user, pretty (user_id user)) <$> listed_users c db).

(** [list_users_exist?]; the message is completed with the wrong ids
    joined by a comma and a space.  [None] is the error raised by
    [blank?]. *)
Definition list_users_exist `{Adapter} (c : Contest) (db : Database)
    : option (list ValidationError) :=
  is_blank ← blank (users_list_ids c);
  Some (if is_blank : bool then []
        else
          match wrong_ids c db with
          | [] => []
          | ids =>
              [ {| attribute := "users_list_ids";
                   message_key := "contest.attributes.user_id.missing";
                   details := ids |} ]
          end).

(** [blacklisted] *)
Definition blacklisted (c : Contest) : list string :=
  if users_list_white c then [] else list_ids c.

(** *** The controller's leaderboard *)

(** The two instance variables [fill_leaderboard] assigns. *)
Record LeaderboardView := {
  view_leaderboard : list RankedEntry;
  view_leaderboard_top : list RankedEntry
}.

(** [fill_leaderboard]: [None] when it returns before assigning. *)
Definition fill_leaderboard (c : Contest) (w : World)
    : option LeaderboardView * World :=
  if leaderboard_enabled c then
    let '(entries, w') := leaderboard c w in
    (Some {| view_leaderboard := entries;
             view_leaderboard_top := take 15 entries |}, w')
  else (None, w).

(** *** Vocabulary *)

(** Rows with strictly more credits than [n]. *)
Definition more_credits (n : Z) (lb : list LeaderboardRow) : list LeaderboardRow :=
  filter (λ p, n < credits p) lb.

(** The database after one more vote is recorded. *)
Definition with_vote (v : ContestVote) (db : Database) : Database :=
  {| profiles := profiles db; users := users db;
     region_table := region_table db; collections := collections db;
     shipments := shipments db; contest_emails := contest_emails db;
     contest_votes := contest_votes db ++ [v] |}.

(** A text without the character. *)
Definition free_of (c : ascii) (s : string) : Prop :=
  c ∉ list_ascii_of_string s.

(** The world after [entries] is stored in the cache under [key]. *)
Definition with_cached (key : string) (entries : list RankedEntry) (w : World)
    : World :=
  {| country_code := country_code w;
     rails_cache := <[key := entries]> (rails_cache w);
     resque := resque w |}.

(** ** The JavaScript sources

    Values as the reducers and the request handlers see them.  An object
    is a finite map from property names to values; an integer stands for
    a number and [oid] for an ObjectId; functions and the methods of the
    prototypes are left out. *)

#[local] Set Warnings "-register-all".

Inductive value :=
  | undefined
  | null
  | boolean (b : bool)
  | number (n : Z)
  | str (s : string)
  | oid (hex : string)
  | array (items : list value)
  | object (fields : gmap string value).

(** [o.k] on an object: a property that is not there reads as undefined. *)
Definition get (o : gmap string value) (k : string) : value :=
  default undefined (o !! k).

(** [...v] inside an object literal: the own enumerable properties.  A
    string spreads its characters under their indices; undefined, null,
    booleans and numbers spread nothing. *)
Definition spread (v : value) : gmap string value :=
  match v with
  | object fields => fields
  | str s =>
      list_to_map
        (imap (λ i c, (pretty i, str (String c EmptyString)))
           (list_ascii_of_string s))
  | array items => list_to_map (imap (λ i x, (pretty i, x)) items)
  | _ => ∅
  end.

(** [v.k]: a [TypeError] ([None]) on undefined and null. *)
Definition member (v : value) (k : string) : option value :=
  match v with
  | undefined | null => None
  | object fields => Some (get fields k)
  | str s =>
      Some (if decide (k = "length") then number (Z.of_nat (String.length s))
            else get (spread v) k)
  | array items =>
      Some (if decide (k = "length") then number (Z.of_nat (length items))
            else get (spread v) k)
  | boolean _ | number _ | oid _ => Some undefined
  end.

(** *** Redux: the user reducer *)

(** Of the five action types of the reducer, two are imported from a file
    that is not among the sources. *)
Class ActionTypes := {
  SET_USER_TOKENS : string;
  USER_DATA_SUCCESS : string
}.

Definition USER_LOGIN : string := "USER_LOGIN".
Definition USER_LOGOUT : string := "USER_LOGOUT".
Definition SET_PUBLIC_KEYS : string := "USER/SET_PUBLIC_KEYS".

Definition userLogin : gmap string value := {[ "type" := str USER_LOGIN ]}.
Definition userLogout : gmap string value := {[ "type" := str USER_LOGOUT ]}.
Definition setPublicKeys (keys : value) : gmap string value :=
  {[ "type" := str SET_PUBLIC_KEYS; "keys" := keys ]}.

Definition initState : gmap string value :=
  {[ "logged" := boolean false;
     "data" := object ∅;
     "token" := null;
     "refreshToken" := null;
     "public_keys" := object ∅ ]}.

(** [action.type === t] *)
Definition type_is (action : gmap string value) (t : string) : bool :=
  match get action "type" with
  | str s => bool_decide (s = t)
  | _ => false
  end.

(** The default export of the user reducer.  [None] for the state is
    undefined, which the default parameter replaces by [initState];
    [None] for the result is the [TypeError] of [action.data.user]. *)
Definition user_reducer `{ActionTypes} (state : option (gmap string value))
    (action : gmap string value) : option (gmap string value) :=
  let state := default initState state in
  if type_is action SET_USER_TOKENS then
    Some (spread (get action "tokens") ∪ state)
  else if type_is action USER_DATA_SUCCESS then
    user ← member (get action "data") "user";
    Some (<["data" := user]> state)
  else if type_is action USER_LOGOUT then
    Some initState
  else if type_is action USER_LOGIN then
    Some (<["logged" := boolean true]> state)
  else if type_is action SET_PUBLIC_KEYS then
    Some (<["public_keys" := get action "keys"]> state)
  else Some state.

(** The selectors of the saga, on the state of the root reducer. *)
Definition getCredentials (root : gmap string value) : option (gmap string value) :=
  token ← member (get root "user") "token";
  refreshToken ← member (get root "user") "refreshToken";
  Some {[ "token" := token; "refreshToken" := refreshToken ]}.

Definition getUserData (root : gmap string value) : option value :=
  member (get root "user") "data".

(** *** Node: the access handler *)

Record AccessParams := {
  maximumGuesses : Z;
  timePeriod : Z
}.

(** What memcached holds under a key: the counter and the lifetime the
    entry was last given. *)
Record Logins := {
  logins_value : Z;
  logins_lifetime : Z
}.

(** The key of the template literal. *)
Definition logins_key (email organisationId : string) : string :=
  email +:+ "_" +:+ organisationId.

(** [isUserBlocked]: what it resolves to and the cache it leaves. *)
Definition isUserBlocked (config : AccessParams) (email organisationId : string)
    (memcache : gmap string Logins) : bool * gmap string Logins :=
  match memcache !! logins_key email organisationId with
  | Some userLogins =>
      if decide (logins_value userLogins >= maximumGuesses config)
      then (true,
            <[logins_key email organisationId :=
                {| logins_value := logins_value userLogins;
                   logins_lifetime := timePeriod config |}]> memcache)
      else (false, memcache)
  | None => (false, memcache)
  end.

(** *** Node: the workflow controller *)

(** What a yielded promise gives: its value, or the error that the
    generator throws and [catch(next)] passes on. *)
Inductive Outcome (A : Type) :=
  | Resolved (a : A)
  | Rejected (error : value).
Arguments Resolved {A} a.
Arguments Rejected {A} error.

(** The answer of a handler: [res.status(..).send(..)] or [next(error)]. *)
Inductive Response :=
  | Send (status : Z) (body : value)
  | Next (error : value).

(** A workflow document, with the organisation it belongs to. *)
Record Workflow := {
  workflow_organisation : string;
  workflow_document : value
}.

(** What the handlers are given from outside the sources: the schema
    check of joi (the message of the first detail of the error, if any),
    the id check of mongoose, the workflow service and the three error
    messages. *)
Record WorkflowEnv := {
  validation_error : gmap string value → option string;
  isValid : string → bool;
  service_create : gmap string value → Outcome value;
  service_findById : string → Outcome (option Workflow);
  service_findByIdWithActions : string → Outcome (option (list value));
  NOT_VALID_ID : string;
  NOT_FOUND : string;
  ERROR_PER_DENIED : string
}.

Definition message (text : string) : value := object {[ "message" := str text ]}.

(** [createWorkflow], given [req.body] and [req.user.organisation]. *)
Definition createWorkflow (env : WorkflowEnv) (body : gmap string value)
    (organisation : value) : Response :=
  match validation_error env body with
  | Some text => Send 400 (message text)
  | None =>
      match service_create env (<["organisation" := organisation]> body) with
      | Resolved workflow => Send 200 workflow
      | Rejected error => Next error
      end
  end.

(** [getWorkflowById], given [req.params.id] and [req.user.organisation]. *)
Definition getWorkflowById (env : WorkflowEnv) (id organisation : string)
    : Response :=
  if negb (isValid env id) then Send 400 (message (NOT_VALID_ID env))
  else
    match service_findById env id with
    | Rejected error => Next error
    | Resolved None => Send 404 (message (NOT_FOUND env))
    | Resolved (Some checkWorkflow) =>
        if negb (bool_decide (workflow_organisation checkWorkflow = organisation))
        then Send 403 (message (ERROR_PER_DENIED env))
        else
          match service_findByIdWithActions env id with
          | Rejected error => Next error
          | Resolved None | Resolved (Some []) =>
              Send 404 (message (NOT_FOUND env))
          | Resolved (Some workflow) => Send 200 (array workflow)
          end
    end.

(** The state of the store after the actions are dispatched one after the
    other, from [initState]; [None] when a reduction throws. *)
Definition dispatch_all `{ActionTypes} (actions : list (gmap string value))
    : option (gmap string value) :=
  foldl (λ state action, state ≫= λ s, user_reducer (Some s) action)
    (Some initState) actions.

(** *** MongoDB: the aggregation over the workflow sessions *)

(** A condition of [$match] on a field: it holds of the value of the
    field or, when that is an array, of one of its items. *)
Definition field_matches (test : value → bool) (v : option value) : bool :=
  match v with
  | Some (array items) => test (array items) || existsb test items
  | Some x => test x
  | None => false
  end.

Definition is_oid (hex : string) (v : value) : bool :=
  match v with
  | oid h => bool_decide (h = hex)
  | _ => false
  end.

Definition is_false (v : value) : bool :=
  match v with
  | boolean false => true
  | _ => false
  end.

(** [$$action.k]: the field of an embedded document, missing ([None])
    when the action is no document or has no such field. *)
Definition field (doc : value) (k : string) : option value :=
  match doc with
  | object fields => fields !! k
  | _ => None
  end.

(** The condition of [$filter]: the action type is ['Form'] and the data
    is not null (a missing field is not null). *)
Definition form_with_data (action : value) : bool :=
  match field action "actionType" with
  | Some (str t) => bool_decide (t = "Form")
  | _ => false
  end
  && match field action "data" with
     | Some null => false
     | _ => true
     end.

(** [$addFields] with [$filter]: null for an input that is null or
    missing, an error ([None]) for an input that is no array. *)
Definition add_filtered_actions (doc : gmap string value)
    : option (gmap string value) :=
  match doc !! "actions" with
  | Some (array items) =>
      Some (<["actions" := array (filter (λ a, form_with_data a) items)]> doc)
  | Some null | Some undefined | None => Some (<["actions" := null]> doc)
  | Some _ => None
  end.

(** ['actions.data': 1] on one item of the array: of a document, nothing
    but its data; an item that is no document is dropped. *)
Definition project_data (action : value) : option value :=
  match action with
  | object fields =>
      Some (object match fields !! "data" with
                   | Some d => {[ "data" := d ]}
                   | None => ∅
                   end)
  | _ => None
  end.

(** [$project]: the id and the projected actions. *)
Definition project_actions_data (doc : gmap string value) : gmap string value :=
  let projected : gmap string value :=
    match doc !! "_id" with
    | Some i => {[ "_id" := i ]}
    | None => ∅
    end in
  match doc !! "actions" with
  | Some (array items) => <["actions" := array (omap project_data items)]> projected
  | Some (object fields) =>
      <["actions" := default (object ∅) (project_data (object fields))]> projected
  | _ => projected
  end.

(** ['actions.0': { $exists: 1 }] *)
Definition has_first_action (doc : gmap string value) : bool :=
  match doc !! "actions" with
  | Some (array (_ :: _)) => true
  | Some (object fields) => bool_decide (is_Some (fields !! "0"))
  | _ => false
  end.

(** The pipeline of the workflow sessions service, for the hexadecimal
    id of a workflow; [None] when a stage fails. *)
Definition aggregate_form_data (workflowId : string)
    (sessions : list (gmap string value)) : option (list (gmap string value)) :=
  let matched :=
    filter (λ doc, field_matches (is_oid workflowId) (doc !! "workflowId")
                   && field_matches is_false (doc !! "deleted")) sessions in
  added ← mapM add_filtered_actions matched;
  Some (filter (λ doc, has_first_action doc) (project_actions_data <$> added)).

(** Two sessions of workflow [w1], the second one deleted; the first has
    an e-mail action and an answered form. *)
Definition form_action : value :=
  object {[ "actionType" := str "Form";
            "data" := object {[ "answer" := str "yes" ]} ]}.

Definition email_action : value :=
  object {[ "actionType" := str "Email"; "data" := null ]}.

Definition sample_sessions : list (gmap string value) :=
  [ {[ "_id" := oid "s1"; "workflowId" := oid "w1";
       "deleted" := boolean false;
       "actions" := array [email_action; form_action] ]};
    {[ "_id" := oid "s2"; "workflowId" := oid "w1";
       "deleted" := boolean true;
       "actions" := array [form_action] ]} ].

Definition sample_form_data : gmap string value :=
  {[ "_id" := oid "s1";
     "actions" := array [object {[ "data" := object {[ "answer" := str "yes" ]} ]}] ]}.

(** Closed membership and equality goals on the sample data are decided by
    running the model. *)
Ltac by_running := apply (bool_decide_unpack _); vm_compute; exact I.

(** * Rank assignment *)

Section calculate_ranks.
Implicit Types (lb : list LeaderboardRow) (e : RankedEntry).

(** One turn of the block: the state after a row holds that row's credits. *)
Lemma calculate_ranks_from_cons index cc cr p lb :
  calculate_ranks_from index cc cr (p :: lb) =
    let r := if decide (credits p = cc) then cr else index + 1 in
    {| entry_row := p; rank := r |}
      :: calculate_ranks_from (index + 1) (credits p) r lb.
Proof.
  simpl. destruct (decide (credits p ≠ cc)) as [Hne|Heq].
  - rewrite decide_False by done. done.
  - apply dec_stable in Heq. rewrite decide_True by done. by subst.
Qed.

Lemma calculate_ranks_from_rows index cc cr lb :
  entry_row <$> calculate_ranks_from index cc cr lb = lb.
Proof.
  revert index cc cr. induction lb as [|p lb IH]; intros; [done|].
  rewrite calculate_ranks_from_cons. cbn. by rewrite IH.
Qed.

Lemma calculate_ranks_from_lookup_row index cc cr lb i e :
  calculate_ranks_from index cc cr lb !! i = Some e → lb !! i = Some (entry_row e).
Proof.
  intros He. rewrite <- (calculate_ranks_from_rows index cc cr lb) at 1.
  by rewrite list_lookup_fmap, He.
Qed.

(** A row whose credits differ from its predecessor's (from the state's,
    for the first row) is ranked by its own position. *)
Lemma calculate_ranks_from_fresh index cc cr lb i e :
  calculate_ranks_from index cc cr lb !! i = Some e →
  match i with
  | O => credits (entry_row e) ≠ cc
  | S i' => ∃ prev, lb !! i' = Some prev ∧ credits prev ≠ credits (entry_row e)
  end →
  rank e = index + Z.of_nat i + 1.
Proof.
  revert index cc cr i. induction lb as [|p lb IH]; intros index cc cr i; [done|].
  rewrite calculate_ranks_from_cons. cbn zeta. destruct i as [|i]; cbn.
  - intros [= <-] Hne. cbn in *. rewrite decide_False by done. lia.
  - intros He Hprev. rewrite (IH _ _ _ _ He); [lia|].
    destruct i as [|i]; [|done].
    destruct Hprev as (prev & [= <-] & Hne). done.
Qed.

(** On rows in descending order below the state's credits, a row that
    still has the state's credits keeps the state's rank. *)
Lemma calculate_ranks_from_run index cc cr lb i e :
  StronglySorted credits_desc lb →
  Forall (λ p, credits p ≤ cc) lb →
  calculate_ranks_from index cc cr lb !! i = Some e →
  credits (entry_row e) = cc →
  rank e = cr.
Proof.
  revert index cc cr i. induction lb as [|p lb IH]; intros index cc cr i; [done|].
  intros [Hs Hall]%StronglySorted_inv [Hp Hle]%Forall_cons.
  rewrite calculate_ranks_from_cons. cbn zeta. destruct i as [|i]; cbn.
  - intros [= <-] Heq. cbn in *. by rewrite decide_True.
  - intros He Heq.
    assert (credits p = cc) as Hpc.
    { apply calculate_ranks_from_lookup_row, list_elem_of_lookup_2 in He.
      rewrite Forall_forall in Hall. apply Hall in He.
      unfold credits_desc in He. lia. }
    rewrite decide_True in He by done. subst cc.
    by apply (IH (index + 1) (credits p) cr i).
Qed.

Lemma calculate_ranks_from_ties index cc cr lb i j e1 e2 :
  StronglySorted credits_desc lb →
  (i ≤ j)%nat →
  calculate_ranks_from index cc cr lb !! i = Some e1 →
  calculate_ranks_from index cc cr lb !! j = Some e2 →
  credits (entry_row e1) = credits (entry_row e2) →
  rank e1 = rank e2.
Proof.
  revert index cc cr i j. induction lb as [|p lb IH]; intros index cc cr i j; [done|].
  intros [Hs Hall]%StronglySorted_inv Hij.
  rewrite calculate_ranks_from_cons. cbn zeta.
  destruct i as [|i], j as [|j]; cbn; try lia.
  - by intros [= <-] [= <-].
  - intros [= <-] He2 Heq. cbn in *. symmetry.
    eapply calculate_ranks_from_run; [done| |done|done].
    rewrite Forall_forall in Hall. apply Forall_forall. intros q Hq. by apply Hall.
  - intros He1 He2 Heq. eapply (IH _ _ _ i j); [done|lia|done..].
Qed.
End calculate_ranks.

(** C1.  On rows sorted by credits descending (credits being scores, hence
    not negative), [calculate_ranks] keeps the rows in place, gives rows
    with equal credits the same rank, and gives the first row and every
    row whose credits differ from the row before it its own 1-based
    position; credits 10, 10, 8, 8, 8, 5 are ranked 1, 1, 3, 3, 3, 6 and
    no row gives no entry. *)
Theorem calculate_ranks_dense_with_ties (lb : list LeaderboardRow) :
  StronglySorted credits_desc lb →
  Forall (λ p, 0 ≤ credits p) lb →
  entry_row <$> calculate_ranks lb = lb
  ∧ (∀ i j e1 e2,
        calculate_ranks lb !! i = Some e1 →
        calculate_ranks lb !! j = Some e2 →
        credits (entry_row e1) = credits (entry_row e2) →
        rank e1 = rank e2)
  ∧ (∀ i e,
        calculate_ranks lb !! i = Some e →
        (i = 0%nat
         ∨ ∃ prev, lb !! (i - 1)%nat = Some prev
                   ∧ credits prev ≠ credits (entry_row e)) →
        rank e = Z.of_nat i + 1)
  ∧ (credits <$> lb = [10; 10; 8; 8; 8; 5] →
     rank <$> calculate_ranks lb = [1; 1; 3; 3; 3; 6])
  ∧ calculate_ranks [] = [].
Proof.
  intros Hsorted Hpos. unfold calculate_ranks. split_and!.
  - apply calculate_ranks_from_rows.
  - intros i j e1 e2 He1 He2 Heq.
    destruct (decide (i ≤ j)%nat).
    + by eapply (calculate_ranks_from_ties _ _ _ _ i j).
    + symmetry. eapply (calculate_ranks_from_ties _ _ _ _ j i); [done|lia|done..].
  - intros i e He Hi.
    rewrite (calculate_ranks_from_fresh _ _ _ _ _ _ He); [lia|].
    destruct i as [|i].
    + apply calculate_ranks_from_lookup_row, list_elem_of_lookup_2 in He.
      rewrite Forall_forall in Hpos. apply Hpos in He. lia.
    + destruct Hi as [|Hi]; [done|]. by rewrite Nat.sub_1_r in Hi.
  - intros Hc.
    do 7 (destruct lb as [|[? ?] lb]; try done).
    cbn in Hc. simplify_eq. cbn.
    repeat (case_decide; try lia). done.
  - done.
Qed.

Lemma calculate_ranks_dense_with_ties_witness :
  let lb := row_with_credits <$> [10; 10; 8; 8; 8; 5] in
  rank <$> calculate_ranks lb = [1; 1; 3; 3; 3; 6].
Proof.
  intros lb.
  refine (proj1 (proj2 (proj2 (proj2 (calculate_ranks_dense_with_ties lb _ _)))) _).
  - repeat (constructor; [|repeat constructor; unfold credits_desc; cbn; lia]).
    constructor.
  - repeat constructor; cbn; lia.
  - reflexivity.
Defined.

(** A row whose credits are the initial [-1] of the two locals would keep
    the initial rank; scores are never negative, so no scored row does. *)
Example calculate_ranks_initial_locals :
  rank <$> calculate_ranks [row_with_credits (-1)] = [-1].
Proof. reflexivity. Qed.

(** * Orderings *)

Section comparator.
Context {A : Type} (cmp : A → A → comparison) `{!Comparator cmp}.

Lemma cmp_eq_r x y z : cmp y z = Eq → cmp x y = cmp x z.
Proof.
  intros Hyz. assert (cmp z y = Eq) as Hzy by (by rewrite (cmp_opp cmp y z), Hyz).
  apply (cmp_eq_l cmp z y x) in Hzy.
  rewrite (cmp_opp cmp x z), (cmp_opp cmp x y) in Hzy.
  destruct (cmp x y), (cmp x z); done.
Qed.

#[global] Instance not_after_total : Total (not_after cmp).
Proof.
  intros x y. unfold not_after. rewrite (cmp_opp cmp x y).
  destruct (cmp x y); cbn; auto.
Qed.

#[global] Instance not_after_trans : Transitive (not_after cmp).
Proof.
  intros x y z. unfold not_after. intros Hxy Hyz.
  destruct (cmp x y) eqn:Exy; [| |done].
  - by rewrite (cmp_eq_l cmp x y z Exy).
  - destruct (cmp y z) eqn:Eyz; [| |done].
    + by rewrite <- (cmp_eq_r x y z Eyz), Exy.
    + by rewrite (cmp_trans cmp Lt x y z Exy Eyz).
Qed.

Lemma order_by_perm (l : list A) : order_by cmp l ≡ₚ l.
Proof. apply merge_sort_Permutation. Qed.

Lemma order_by_sorted (l : list A) : StronglySorted (not_after cmp) (order_by cmp l).
Proof. apply StronglySorted_merge_sort; apply _. Qed.

(** Composition with a key. *)
Lemma comparator_on {B : Type} (key : B → A) :
  Comparator (λ x y, cmp (key x) (key y)).
Proof.
  split; intros.
  - apply (cmp_opp cmp).
  - by eapply (cmp_trans cmp).
  - by apply (cmp_eq_l cmp).
Qed.

(** The next key after this one. *)
Lemma comparator_then_by (cmp' : A → A → comparison) `{!Comparator cmp'} :
  Comparator (λ x y, then_by (cmp x y) (cmp' x y)).
Proof.
  split.
  - intros x y. rewrite (cmp_opp cmp x y), (cmp_opp cmp' x y).
    by destruct (cmp x y).
  - intros c x y z Hxy Hyz.
    destruct (cmp x y) eqn:Exy; cbn in Hxy.
    + rewrite (cmp_eq_l cmp x y z Exy).
      destruct (cmp y z) eqn:Eyz; cbn in *; [by eapply (cmp_trans cmp')|done..].
    + subst c. destruct (cmp y z) eqn:Eyz; cbn in Hyz; [|clear Hyz|done].
      * by rewrite <- (cmp_eq_r x y z Eyz), Exy.
      * by rewrite (cmp_trans cmp Lt x y z Exy Eyz).
    + subst c. destruct (cmp y z) eqn:Eyz; cbn in Hyz; [|done|clear Hyz].
      * by rewrite <- (cmp_eq_r x y z Eyz), Exy.
      * by rewrite (cmp_trans cmp Gt x y z Exy Eyz).
  - intros x y z Hxy.
    destruct (cmp x y) eqn:Exy; cbn in Hxy; [|done..].
    by rewrite (cmp_eq_l cmp x y z Exy), (cmp_eq_l cmp' x y z Hxy).
Qed.
End comparator.

Lemma order_by_elem_of {A : Type} (cmp : A → A → comparison) (l : list A) x :
  x ∈ order_by cmp l ↔ x ∈ l.
Proof. unfold order_by. by rewrite merge_sort_Permutation. Qed.

Lemma StronglySorted_lookup {A : Type} (R : relation A) (l : list A) i j x y :
  StronglySorted R l → (i < j)%nat → l !! i = Some x → l !! j = Some y → R x y.
Proof.
  intros Hs. revert i j. induction Hs as [|a l Hs IH Hall]; intros i j Hij; [done|].
  destruct i as [|i], j as [|j]; cbn; try lia.
  - intros [= <-] Hy%list_elem_of_lookup_2.
    rewrite Forall_forall in Hall. by apply Hall.
  - apply IH. lia.
Qed.

Lemma compare_desc_comparator : Comparator (λ x y : Z, y ?= x).
Proof.
  split.
  - intros x y. apply Z.compare_antisym.
  - intros c x y z Hxy Hyz.
    destruct (Z.compare_spec y x), (Z.compare_spec z y), (Z.compare_spec z x);
      subst; try done; lia.
  - intros x y z ->%Z.compare_eq. done.
Qed.

Section collation.
Context `{Collation}.

Lemma text_cmp_spec s t :
  match text_cmp s t with
  | Eq => text_le s t = true ∧ text_le t s = true
  | Lt => text_le s t = true ∧ text_le t s = false
  | Gt => text_le s t = false ∧ text_le t s = true
  end.
Proof.
  unfold text_cmp. destruct (text_le_total s t) as [Hst|Hts].
  - rewrite Hst. by destruct (text_le t s).
  - rewrite Hts. by destruct (text_le s t).
Qed.

Lemma text_le_false_trans s t u :
  text_le s t = true → text_le u t = false → text_le u s = false.
Proof.
  intros Hst Hut. destruct (text_le u s) eqn:Hus; [|done].
  by rewrite (text_le_trans u s t Hus Hst) in Hut.
Qed.

#[global] Instance text_cmp_comparator : Comparator text_cmp.
Proof.
  split.
  - intros s t. pose proof (text_cmp_spec s t). pose proof (text_cmp_spec t s).
    destruct (text_cmp s t), (text_cmp t s); cbn; intuition congruence.
  - intros c s t u Hst Htu.
    pose proof (text_cmp_spec s t) as H1. pose proof (text_cmp_spec t u) as H2.
    pose proof (text_cmp_spec s u) as H3. rewrite Hst in H1. rewrite Htu in H2.
    destruct c, H1 as [Ha Hb], H2 as [Hc Hd].
    + pose proof (text_le_trans _ _ _ Ha Hc). pose proof (text_le_trans _ _ _ Hd Hb).
      destruct (text_cmp s u); intuition congruence.
    + pose proof (text_le_trans _ _ _ Ha Hc).
      pose proof (text_le_false_trans _ _ _ Ha Hd).
      destruct (text_cmp s u); intuition congruence.
    + pose proof (text_le_trans _ _ _ Hd Hb).
      pose proof (text_le_false_trans _ _ _ Hd Ha).
      destruct (text_cmp s u); intuition congruence.
  - intros s t u Hst. pose proof (text_cmp_spec s t) as H1. rewrite Hst in H1.
    destruct H1 as [Ha Hb]. unfold text_cmp.
    assert (text_le s u = text_le t u) as ->.
    { destruct (text_le t u) eqn:Htu; [by eapply text_le_trans|].
      destruct (text_le s u) eqn:Hsu; [|done].
      by rewrite (text_le_trans _ _ _ Hb Hsu) in Htu. }
    assert (text_le u s = text_le u t) as ->; [|done].
    destruct (text_le u t) eqn:Hut; [by eapply text_le_trans|].
    by eapply text_le_false_trans.
Qed.

#[global] Instance nullable_text_cmp_comparator : Comparator nullable_text_cmp.
Proof.
  split.
  - intros [s|] [t|]; cbn; [apply (cmp_opp text_cmp)|done..].
  - intros c [s|] [t|] [u|]; cbn; try congruence. apply (cmp_trans text_cmp).
  - intros [s|] [t|] [u|]; cbn; try done. apply (cmp_eq_l text_cmp).
Qed.

#[global] Instance profile_order_comparator : Comparator profile_order.
Proof.
  exact (@comparator_then_by _ _ (comparator_on text_cmp organization_name) _
           (@comparator_then_by _ _ (comparator_on text_cmp city) _
              (comparator_on text_cmp zipcode))).
Qed.

#[global] Instance tie_break_order_comparator : Comparator tie_break_order.
Proof.
  exact (@comparator_then_by _ _ (comparator_on text_cmp row_organization_name) _
           (@comparator_then_by _ _ (comparator_on text_cmp row_city) _
              (@comparator_then_by _ _
                 (comparator_on nullable_text_cmp row_region_code) _
                 (comparator_on text_cmp row_zipcode)))).
Qed.

#[global] Instance leaderboard_order_comparator : Comparator leaderboard_order.
Proof.
  exact (@comparator_then_by _ _
           (@comparator_on _ _ compare_desc_comparator _ credits) _
           (comparator_on tie_break_order numbers)).
Qed.
End collation.

(** ** The byte-wise collation is a collation *)

Lemma ascii_compare_lt_trans a b c :
  Ascii.compare a b = Lt → Ascii.compare b c = Lt → Ascii.compare a c = Lt.
Proof.
  unfold Ascii.compare. rewrite !N.compare_lt_iff. apply N.lt_trans.
Qed.

Lemma string_leb_trans s t u :
  String.leb s t = true → String.leb t u = true → String.leb s u = true.
Proof.
  unfold String.leb. revert t u.
  induction s as [|a s IH]; intros [|b t] [|c u]; cbn; try done.
  destruct (Ascii.compare a b) eqn:Eab; [| |done].
  - apply Ascii.compare_eq_iff in Eab as ->.
    destruct (Ascii.compare b c); [apply IH|done..].
  - destruct (Ascii.compare b c) eqn:Ebc; [| |done].
    + apply Ascii.compare_eq_iff in Ebc as <-. by rewrite Eab.
    + by rewrite (ascii_compare_lt_trans a b c).
Qed.

#[global] Instance c_locale_collation : Collation c_locale.
Proof.
  split.
  - apply String.leb_total.
  - apply string_leb_trans.
Qed.

(** * Activity aggregation *)

Lemma cover_spec lo hi t : cover (lo, hi) t = true ↔ lo ≤ t ≤ hi.
Proof.
  unfold cover. cbn.
  rewrite andb_true_iff, !bool_decide_eq_true. done.
Qed.

Lemma elem_of_allowed_collections c db col :
  col ∈ allowed_collections c db ↔
    col ∈ collections db ∧ collection_active col = true
    ∧ brigade_id col ∈ brigade_ids c.
Proof.
  unfold allowed_collections, allowed_collection.
  rewrite list_elem_of_filter, andb_True, bool_decide_spec, Is_true_true.
  tauto.
Qed.

Lemma elem_of_active_contest_votes c db v e :
  (v, e) ∈ active_contest_votes c db ↔
    v ∈ contest_votes db ∧ e ∈ contest_emails db
    ∧ contest_email_id e = vote_contest_email_id v
    ∧ vote_contest_id v = id c
    ∧ verified e = true
    ∧ in_time_zone (first_day c) ≤ vote_created_at v ≤ in_time_zone (last_day c) + day.
Proof.
  unfold active_contest_votes. rewrite list_elem_of_bind. split.
  - intros (v' & Hin & Hv'). apply list_elem_of_bind in Hin as (e' & Hin & He').
    apply list_elem_of_filter in He' as (Hid & He').
    destruct (bool_decide _ && verified e' && cover _ _) eqn:Hc;
      [|by apply not_elem_of_nil in Hin].
    apply list_elem_of_singleton in Hin as [= -> ->].
    apply andb_true_iff in Hc as [[Hc Hver]%andb_true_iff Hcov].
    apply bool_decide_eq_true in Hc. apply cover_spec in Hcov. done.
  - intros (Hv & He & Hid & Hc & Hver & Hcov). exists v. split; [|done].
    apply list_elem_of_bind. exists e. split; [|by apply list_elem_of_filter].
    apply (cover_spec _ _ (vote_created_at v)) in Hcov.
    unfold interval_in_time_zone. rewrite Hcov, Hver, bool_decide_true by done.
    cbn. by apply list_elem_of_singleton.
Qed.

Lemma elem_of_allowed_shipments c db s col :
  (s, col) ∈ allowed_shipments c db ↔
    s ∈ shipments db ∧ col ∈ collections db
    ∧ collection_id col = shipment_collection_id s
    ∧ collection_active col = true
    ∧ brigade_id col ∈ brigade_ids c
    ∧ in_time_zone (first_day c) ≤ shipment_created_at s ≤ in_time_zone (last_day c) + day.
Proof.
  unfold allowed_shipments. rewrite list_elem_of_bind. split.
  - intros (s' & Hin & Hs'). apply list_elem_of_bind in Hin as (col' & Hin & Hcol).
    apply list_elem_of_singleton in Hin as [= -> ->].
    apply list_elem_of_filter in Hs' as (Hcov & Hs').
    apply list_elem_of_filter in Hcol as (Hid & Hcol).
    apply elem_of_allowed_collections in Hcol as (? & ? & ?).
    apply Is_true_true, cover_spec in Hcov. done.
  - intros (Hs & Hcol & Hid & Hact & Hbr & Hcov). exists s. split.
    + apply list_elem_of_bind. exists col. split; [by apply list_elem_of_singleton|].
      apply list_elem_of_filter. split; [done|].
      by apply elem_of_allowed_collections.
    + apply list_elem_of_filter. split; [|done].
      by apply Is_true_true, cover_spec.
Qed.

Lemma filter_list_prod {A B} (P : A * B → Prop) `{!∀ x, Decision (P x)}
    (l1 : list A) (l2 : list B) :
  filter P (list_prod l1 l2) = a ← l1; filter P (pair a <$> l2).
Proof.
  induction l1 as [|a l1 IH]; [done|].
  cbn [list_prod]. by rewrite filter_app, IH.
Qed.

Lemma filter_bind_list {A B} (P : B → Prop) `{!∀ x, Decision (P x)}
    (f : A → list B) (l : list A) :
  filter P (l ≫= f) = l ≫= λ a, filter P (f a).
Proof.
  induction l as [|a l IH]; [done|].
  by rewrite !bind_cons, filter_app, IH.
Qed.

Lemma profile_votes_counted (c : Contest) (db : Database) (pid : Z) :
  profile_votes c db pid
  = filter (λ ve : ContestVote * ContestEmail,
              vote_profile_id ve.1 = pid
              ∧ vote_contest_id ve.1 = id c
              ∧ contest_email_id ve.2 = vote_contest_email_id ve.1
              ∧ verified ve.2 = true
              ∧ in_time_zone (first_day c) ≤ vote_created_at ve.1
                  ≤ in_time_zone (last_day c) + day)
           (list_prod (contest_votes db) (contest_emails db)).
Proof.
  unfold profile_votes, active_contest_votes.
  rewrite filter_list_prod, filter_bind_list.
  apply list_bind_ext; [|done]. intros v.
  induction (contest_emails db) as [|e es IH]; [done|].
  rewrite fmap_cons, (filter_cons _ (v, e)), <- IH. clear IH.
  pose proof (cover_spec (in_time_zone (first_day c))
                (in_time_zone (last_day c) + day) (vote_created_at v)) as Hcov.
  unfold interval_in_time_zone.
  rewrite filter_cons.
  destruct (decide (contest_email_id e = vote_contest_email_id v)) as [Hid|Hid];
    [|by rewrite decide_False by naive_solver].
  rewrite bind_cons, filter_app.
  match goal with |- (_ ++ ?t)%list = _ => generalize t; intros tail end.
  destruct (bool_decide (vote_contest_id v = id c)) eqn:Hc;
    [apply bool_decide_eq_true in Hc|apply bool_decide_eq_false in Hc];
    destruct (verified e) eqn:Hver;
    destruct (cover _ (vote_created_at v));
    cbn [andb]; rewrite ?filter_cons, ?filter_nil;
    repeat case_decide; cbn [fst snd] in *; try done; exfalso; intuition congruence.
Qed.

Lemma profile_shipments_counted (c : Contest) (db : Database) (pid : Z) :
  profile_shipments c db pid
  = filter (λ sc : Shipment * Collection,
              collection_profile_id sc.2 = pid
              ∧ collection_id sc.2 = shipment_collection_id sc.1
              ∧ collection_active sc.2 = true
              ∧ brigade_id sc.2 ∈ brigade_ids c
              ∧ in_time_zone (first_day c) ≤ shipment_created_at sc.1
                  ≤ in_time_zone (last_day c) + day)
           (list_prod (shipments db) (collections db)).
Proof.
  unfold profile_shipments, allowed_shipments, allowed_collections.
  rewrite filter_list_prod, filter_bind_list.
  induction (shipments db) as [|s ss IH]; [done|].
  rewrite bind_cons, <- IH. clear IH.
  pose proof (cover_spec (in_time_zone (first_day c))
                (in_time_zone (last_day c) + day) (shipment_created_at s)) as Hcov.
  unfold interval_in_time_zone in *.
  assert (filter (λ sc : Shipment * Collection,
              collection_profile_id sc.2 = pid
              ∧ collection_id sc.2 = shipment_collection_id sc.1
              ∧ collection_active sc.2 = true
              ∧ brigade_id sc.2 ∈ brigade_ids c
              ∧ in_time_zone (first_day c) ≤ shipment_created_at sc.1
                  ≤ in_time_zone (last_day c) + day)
            (pair s <$> collections db)
          = if cover (in_time_zone (first_day c), in_time_zone (last_day c) + day)
                 (shipment_created_at s)
            then filter (λ r : Shipment * Collection, collection_profile_id r.2 = pid)
                   (col ← filter (λ col, collection_id col = shipment_collection_id s)
                            (filter (λ col, allowed_collection c col) (collections db));
                    [(s, col)])
            else []) as ->.
  { induction (collections db) as [|col cols IH]; [by destruct (cover _ _)|].
    rewrite fmap_cons, (filter_cons _ (s, col)), IH. clear IH.
    destruct (cover _ (shipment_created_at s)) eqn:Hc.
    2:{ rewrite decide_False; [done|]. cbn [fst snd].
        intros (_ & _ & _ & _ & Hin). by apply Hcov in Hin. }
    assert (allowed_collection c col
            ↔ collection_active col = true ∧ brigade_id col ∈ brigade_ids c)
      as Hallowed.
    { unfold allowed_collection.
      by rewrite andb_True, bool_decide_spec, Is_true_true. }
    rewrite filter_cons.
    destruct (decide (allowed_collection c col)) as [Ha|Ha].
    2:{ rewrite decide_False; [done|]. cbn [fst snd]. intuition. }
    rewrite filter_cons.
    destruct (decide (collection_id col = shipment_collection_id s)) as [Hid|Hid].
    2:{ rewrite decide_False; [done|]. cbn [fst snd]. intuition. }
    rewrite bind_cons, filter_app, filter_cons, filter_nil.
    cbn [fst snd]. apply Hallowed in Ha as [Hact Hbr].
    destruct (decide (collection_profile_id col = pid)) as [Hpid|Hpid].
    - rewrite decide_True; [done|]. split_and!; try done; by apply Hcov.
    - rewrite decide_False; [done|]. intuition. }
  rewrite filter_cons.
  destruct (cover _ (shipment_created_at s)) eqn:Hc.
  - rewrite decide_True by done. by rewrite bind_cons.
  - by rewrite decide_False by (by rewrite Is_true_false).
Qed.

Lemma sum_units_foldr (rows : list (Shipment * Collection)) :
  sum_units rows
  = foldr Z.add 0 ((λ sc, default 0 (units_collected sc.1)) <$> rows).
Proof. unfold sum_units. induction rows as [|r rows IH]; [done|]. cbn. by rewrite IH. Qed.

(** C2 (as the code has it).  The votes and shipments that are counted are
    exactly the verified votes of the contest, and the shipments of its
    active collections, created between midnight of [first_day] and
    midnight after [last_day]: the whole span of the contest and one day,
    whatever the time of the computation.  For every participant of
    [raw_numbers], the vote count is the number of those votes that are
    for the participant, the shipment count the number of those shipments
    whose collection is the participant's, and the unit count the sum of
    the units of these shipments (none given counts 0). *)
Theorem activity_counted_over_contest_span `{Adapter} (c : Contest) (db : Database) :
  (∀ v e,
      (v, e) ∈ active_contest_votes c db ↔
        v ∈ contest_votes db ∧ e ∈ contest_emails db
        ∧ contest_email_id e = vote_contest_email_id v
        ∧ vote_contest_id v = id c
        ∧ verified e = true
        ∧ in_time_zone (first_day c) ≤ vote_created_at v
            ≤ in_time_zone (last_day c) + day)
  ∧ (∀ s col,
      (s, col) ∈ allowed_shipments c db ↔
        s ∈ shipments db ∧ col ∈ collections db
        ∧ collection_id col = shipment_collection_id s
        ∧ collection_active col = true
        ∧ brigade_id col ∈ brigade_ids c
        ∧ in_time_zone (first_day c) ≤ shipment_created_at s
            ≤ in_time_zone (last_day c) + day)
  ∧ (∀ n, n ∈ raw_numbers c db →
       let votes :=
         filter (λ ve : ContestVote * ContestEmail,
                   vote_profile_id ve.1 = row_id n
                   ∧ vote_contest_id ve.1 = id c
                   ∧ contest_email_id ve.2 = vote_contest_email_id ve.1
                   ∧ verified ve.2 = true
                   ∧ in_time_zone (first_day c) ≤ vote_created_at ve.1
                       ≤ in_time_zone (last_day c) + day)
                (list_prod (contest_votes db) (contest_emails db)) in
       let shipped :=
         filter (λ sc : Shipment * Collection,
                   collection_profile_id sc.2 = row_id n
                   ∧ collection_id sc.2 = shipment_collection_id sc.1
                   ∧ collection_active sc.2 = true
                   ∧ brigade_id sc.2 ∈ brigade_ids c
                   ∧ in_time_zone (first_day c) ≤ shipment_created_at sc.1
                       ≤ in_time_zone (last_day c) + day)
                (list_prod (shipments db) (collections db)) in
       vote_count n = Z.of_nat (length votes)
       ∧ shipment_count n = Z.of_nat (length shipped)
       ∧ units_count n
         = foldr Z.add 0 ((λ sc, default 0 (units_collected sc.1)) <$> shipped)).
Proof.
  split_and!.
  - intros. apply elem_of_active_contest_votes.
  - intros. apply elem_of_allowed_shipments.
  - intros n (r & -> & _)%elem_of_remove_dups%list_elem_of_fmap. cbv zeta.
    cbn [raw_numbers_row row_id vote_count shipment_count units_count].
    by rewrite sum_units_foldr, profile_votes_counted, profile_shipments_counted.
Qed.

Lemma activity_counted_over_contest_span_witness :
  let c := sample_contest "" false [] false in
  let n := raw_numbers_row c sample_db
             {| c_profile := apple;
                c_region := Some {| region_pk := 5; region_code := "NY" |};
                c_user := {| user_id := 1; first_name := "John";
                             last_name := "Smith"; current_profile := 11 |};
                c_collection := sample_collection 100 11 |} in
  n ∈ @raw_numbers c_locale c sample_db
  ∧ vote_count n = 0 ∧ shipment_count n = 1 ∧ units_count n = 2.
Proof.
  intros c n.
  assert (n ∈ @raw_numbers c_locale c sample_db) as Hn by by_running.
  split; [exact Hn|].
  destruct (proj2 (proj2 (@activity_counted_over_contest_span c_locale c sample_db))
              n Hn) as (Hvotes & Hshipments & Hunits).
  rewrite Hvotes, Hshipments, Hunits. by vm_compute.
Defined.

(** C2 as stated fails.  On the last day of a contest that runs from day
    0 to day 10, a verified vote cast on day 2 is counted for its
    participant although it lies outside the window of one day around
    that moment. *)
Lemma rolling_window_refuted :
  let c := sample_contest "" false [] false in
  let as_of := in_time_zone (last_day c) in
  (sample_vote, sample_email) ∈ active_contest_votes c sample_db
  ∧ length (profile_votes c sample_db (profile_id banana)) = 1%nat
  ∧ ¬ spec_scoring_window as_of day day (vote_created_at sample_vote).
Proof.
  split_and!.
  - by_running.
  - reflexivity.
  - unfold spec_scoring_window. vm_compute. intros [H _]. by apply H.
Qed.

(** * Scoring *)

Lemma elem_of_leaderboard_scope `{Adapter} c db r :
  r ∈ leaderboard_scope c db ↔
    numbers r ∈ raw_numbers c db ∧ credits r = credits_of c (numbers r).
Proof.
  unfold leaderboard_scope. rewrite order_by_elem_of, list_elem_of_fmap. split.
  - by intros (n & -> & Hn).
  - intros [Hn Hc]. exists (numbers r). split; [|done].
    destruct r as [n cr]. cbn in *. by subst.
Qed.

(** C5.  The credits of a row are the vote weight times its vote count
    plus the shipment weight times its shipment count plus the unit
    weight times its unit count, for the computed column and for every
    row of the leaderboard; a weight of 0 leaves the other two terms. *)
Theorem credits_weighted_sum `{Adapter} (c : Contest) (db : Database) :
  (∀ n, credits_of c n =
          credits_by_vote c * vote_count n
          + credits_by_shipment c * shipment_count n
          + credits_by_unit c * units_count n)
  ∧ (∀ r, r ∈ leaderboard_scope c db →
          credits r =
            credits_by_vote c * vote_count (numbers r)
            + credits_by_shipment c * shipment_count (numbers r)
            + credits_by_unit c * units_count (numbers r))
  ∧ (∀ n, credits_by_vote c = 0 →
          credits_of c n =
            credits_by_shipment c * shipment_count n
            + credits_by_unit c * units_count n)
  ∧ (∀ n, credits_by_shipment c = 0 →
          credits_of c n =
            credits_by_vote c * vote_count n + credits_by_unit c * units_count n)
  ∧ (∀ n, credits_by_unit c = 0 →
          credits_of c n =
            credits_by_vote c * vote_count n
            + credits_by_shipment c * shipment_count n).
Proof.
  unfold credits_of. split_and!.
  - intros n. lia.
  - intros r [_ ->]%elem_of_leaderboard_scope. unfold credits_of. lia.
  - intros n ->. lia.
  - intros n ->. lia.
  - intros n ->. lia.
Qed.

Lemma credits_weighted_sum_witness :
  let c := sample_contest "" false [] false in
  let r := {| numbers :=
                {| row_id := 11; row_organization_name := "apple";
                   row_first_name := "John"; row_last_name := "Smith";
                   row_city := "Troy"; row_region_code := Some "NY";
                   row_zipcode := "10001"; vote_count := 0;
                   shipment_count := 1; units_count := 2 |};
              credits := 11 |} in
  r ∈ @leaderboard_scope c_locale c sample_db
  ∧ credits r = 1 * 0 + 5 * 1 + 3 * 2.
Proof.
  intros c r.
  assert (r ∈ @leaderboard_scope c_locale c sample_db) as Hr by by_running.
  split; [exact Hr|].
  exact (proj1 (proj2 (@credits_weighted_sum c_locale c sample_db)) r Hr).
Defined.

(** * Eligibility *)

Section eligibility.
Context `{Adapter}.
Implicit Types (c : Contest) (db : Database) (p : Profile).

Lemma listed_spec c db p :
  listed c db p ↔
    ∃ u, u ∈ users db ∧ user_id u ∈ cast_integer <$> list_ids c
         ∧ current_profile u = profile_id p.
Proof.
  unfold listed, listed_users. rewrite list_elem_of_fmap. split.
  - intros (u & Hp & (Hu & Hin)%list_elem_of_filter). eauto.
  - intros (u & Hin & Hu & Hp). exists u. split; [done|].
    by apply list_elem_of_filter.
Qed.

Lemma elem_of_where_node c db p :
  p ∈ where_node (filter_by_list_ids c db) (profiles db) ↔
    p ∈ profiles db
    ∧ (list_ids c ≠ [] →
       if users_list_white c then listed c db p else ¬ listed c db p).
Proof.
  unfold filter_by_list_ids, where_node, listed.
  destruct (list_ids c) as [|s ids]; [naive_solver|].
  destruct (users_list_white c); cbn;
    rewrite list_elem_of_filter, bool_decide_spec; naive_solver.
Qed.

Lemma elem_of_allowed_profiles c db p :
  p ∈ allowed_profiles c db ↔
    p ∈ profiles db
    ∧ (list_ids c ≠ [] →
       if users_list_white c then listed c db p else ¬ listed c db p)
    ∧ (users_list_white c = false →
       (select_options c ≠ [] →
        column_in (organization_type_id p) (select_options c) = true)
       ∧ (regions c ≠ [] → column_in (region_id p) (regions c) = true)).
Proof.
  unfold allowed_profiles. cbn zeta. rewrite order_by_elem_of.
  destruct (users_list_white c) eqn:Hw.
  - rewrite elem_of_where_node, Hw. naive_solver.
  - repeat case_decide; rewrite ?list_elem_of_filter, elem_of_where_node, Hw,
      ?Is_true_true; naive_solver.
Qed.

Lemma list_ids_with_mode b c : list_ids (with_mode b c) = list_ids c.
Proof. done. Qed.

Lemma listed_with_mode b c db p : listed (with_mode b c) db p ↔ listed c db p.
Proof. done. Qed.
End eligibility.

(** C3 (as the code has it).  In whitelist mode with a list that is not
    blank, the eligible profiles are exactly the profiles that are the
    current profile of a listed user, whatever the categories and regions
    of the contest; where every profile has its owner among the users and
    is the current profile of that user only, these are exactly the
    profiles whose owning user is listed. *)
Theorem whitelist_allowed_profiles `{Adapter} (c : Contest) (db : Database) :
  users_list_white c = true →
  list_ids c ≠ [] →
  (∀ p, p ∈ allowed_profiles c db ↔
          p ∈ profiles db
          ∧ ∃ u, u ∈ users db ∧ user_id u ∈ cast_integer <$> list_ids c
                 ∧ current_profile u = profile_id p)
  ∧ ((∀ p, p ∈ profiles db →
           ∃ u, u ∈ users db ∧ user_id u = profile_user_id p) →
     (∀ u p, u ∈ users db → p ∈ profiles db →
             (current_profile u = profile_id p ↔ user_id u = profile_user_id p)) →
     ∀ p, p ∈ allowed_profiles c db ↔
            p ∈ profiles db
            ∧ profile_user_id p ∈ cast_integer <$> list_ids c).
Proof.
  intros Hw Hne.
  assert (∀ p, p ∈ allowed_profiles c db ↔ p ∈ profiles db ∧ listed c db p) as Hl.
  { intros p. rewrite elem_of_allowed_profiles, Hw. naive_solver. }
  split.
  - intros p. by rewrite Hl, listed_spec.
  - intros Howner Hcur p. rewrite Hl, listed_spec. split.
    + intros (Hp & u & Hu & Hin & Hup). split; [done|].
      apply Hcur in Hup; [|done..]. by rewrite <- Hup.
    + intros (Hp & Hin). split; [done|].
      destruct (Howner p Hp) as (u & Hu & Hup). exists u.
      split_and!; [done|by rewrite Hup|by apply Hcur].
Qed.

Lemma whitelist_allowed_profiles_witness :
  let c := sample_contest "1,2" true [5] false in
  banana ∈ @allowed_profiles c_locale c sample_db.
Proof.
  intros c.
  apply (proj1 (@whitelist_allowed_profiles c_locale c sample_db
                  eq_refl ltac:(vm_compute; discriminate))).
  split; [by_running|].
  exists {| user_id := 2; first_name := "Ann"; last_name := "Lee";
            current_profile := 12 |}.
  split_and!; [by_running|by_running|reflexivity].
Defined.

(** C3 as stated fails.  A whitelist contest restricted to region 5 lists
    user 2, whose profile lies in region 9: the profile is eligible. *)
Lemma whitelist_region_constraint_refuted :
  let c := sample_contest "1,2" true [5] false in
  users_list_white c = true
  ∧ regions c ≠ []
  ∧ banana ∈ @allowed_profiles c_locale c sample_db
  ∧ profile_user_id banana ∈ @cast_integer c_locale <$> list_ids c
  ∧ column_in (region_id banana) (regions c) = false.
Proof. split_and!; [reflexivity|done|by_running|by_running|reflexivity]. Qed.

(** C6 (as the code has it).  For a list that is not blank no profile is
    eligible in both modes, and when the contest names no category and no
    region every profile is eligible in exactly one of them; in general
    the profiles eligible in one of the modes are the listed ones and the
    unlisted ones that meet the category and region constraints. *)
Theorem whitelist_blacklist_complement `{Adapter} (c : Contest) (db : Database) :
  list_ids c ≠ [] →
  (∀ p, ¬ (p ∈ allowed_profiles (with_mode true c) db
           ∧ p ∈ allowed_profiles (with_mode false c) db))
  ∧ (select_options c = [] → regions c = [] →
     ∀ p, p ∈ profiles db ↔
            p ∈ allowed_profiles (with_mode true c) db
            ∨ p ∈ allowed_profiles (with_mode false c) db)
  ∧ (∀ p, p ∈ allowed_profiles (with_mode true c) db
          ∨ p ∈ allowed_profiles (with_mode false c) db ↔
            p ∈ profiles db
            ∧ (listed c db p
               ∨ (select_options c ≠ [] →
                  column_in (organization_type_id p) (select_options c) = true)
                 ∧ (regions c ≠ [] →
                    column_in (region_id p) (regions c) = true))).
Proof.
  intros Hne.
  assert (∀ p, p ∈ allowed_profiles (with_mode true c) db ↔
                 p ∈ profiles db ∧ listed c db p) as Hw.
  { intros p. rewrite elem_of_allowed_profiles. cbn. naive_solver. }
  assert (∀ p, p ∈ allowed_profiles (with_mode false c) db ↔
                 p ∈ profiles db ∧ ¬ listed c db p
                 ∧ (select_options c ≠ [] →
                    column_in (organization_type_id p) (select_options c) = true)
                 ∧ (regions c ≠ [] →
                    column_in (region_id p) (regions c) = true)) as Hb.
  { intros p. rewrite elem_of_allowed_profiles. cbn. naive_solver. }
  split_and!.
  - intros p. rewrite Hw, Hb. naive_solver.
  - intros Hso Hrg p. rewrite Hw, Hb, Hso, Hrg.
    destruct (decide (listed c db p)); naive_solver.
  - intros p. rewrite Hw, Hb.
    destruct (decide (listed c db p)); naive_solver.
Qed.

Lemma whitelist_blacklist_complement_witness :
  let c := sample_contest "1,2" true [] false in
  ¬ (banana ∈ @allowed_profiles c_locale (with_mode true c) sample_db
     ∧ banana ∈ @allowed_profiles c_locale (with_mode false c) sample_db).
Proof.
  intros c.
  exact (proj1 (@whitelist_blacklist_complement c_locale c sample_db
                  ltac:(vm_compute; discriminate)) banana).
Defined.

(** C6 as stated fails twice.  With a blank list a profile is eligible in
    both modes; with a region constraint an unlisted profile outside the
    region is eligible in neither. *)
Lemma whitelist_blacklist_complement_refuted :
  (let c := sample_contest "" true [] false in
   cherry ∈ @allowed_profiles c_locale (with_mode true c) sample_db
   ∧ cherry ∈ @allowed_profiles c_locale (with_mode false c) sample_db)
  ∧ (let c := sample_contest "1,2" true [5] false in
     cherry ∈ profiles sample_db
     ∧ (cherry ∉ @allowed_profiles c_locale (with_mode true c) sample_db)
     ∧ (cherry ∉ @allowed_profiles c_locale (with_mode false c) sample_db)).
Proof. split; split_and!; by_running. Qed.

(** * Order of the leaderboard *)

Lemma then_by_in_order c1 c2 (ks : list comparison) :
  then_by c1 c2 ≠ Gt → (c2 ≠ Gt → in_order ks) → in_order (c1 :: ks).
Proof. destruct c1; cbn; intros Hle Hks; [right; auto|by left|done]. Qed.

Lemma tie_break_in_order `{Adapter} p q :
  tie_break_order p q ≠ Gt →
  in_order [ text_cmp (row_organization_name p) (row_organization_name q);
             text_cmp (row_city p) (row_city q);
             nullable_text_cmp (row_region_code p) (row_region_code q);
             text_cmp (row_zipcode p) (row_zipcode q) ].
Proof.
  unfold tie_break_order. intros Hle.
  repeat (eapply then_by_in_order; [done|clear Hle; intros Hle]).
  cbn. destruct (text_cmp (row_zipcode p) (row_zipcode q)); auto. done.
Qed.

(** A row of the leaderboard is not placed after a later one. *)
Lemma leaderboard_scope_not_after `{Collation} (c : Contest) (db : Database)
    (i j : nat) (p q : LeaderboardRow) :
  (i < j)%nat →
  leaderboard_scope c db !! i = Some p →
  leaderboard_scope c db !! j = Some q →
  not_after leaderboard_order p q.
Proof.
  apply StronglySorted_lookup, (order_by_sorted leaderboard_order).
Qed.

(** C7 (as the code has it).  In the leaderboard a row never has fewer
    credits than a row after it, and two rows with equal credits are in
    ascending order of organization name, then city, then region code
    (rows without one last), then postal code, each compared under the
    collation of the database; the query folds no case. *)
Theorem leaderboard_scope_ordered `{Collation} (c : Contest) (db : Database)
    (i j : nat) (p q : LeaderboardRow) :
  (i < j)%nat →
  leaderboard_scope c db !! i = Some p →
  leaderboard_scope c db !! j = Some q →
  credits q ≤ credits p
  ∧ (credits p = credits q →
     in_order
       [ text_cmp (row_organization_name (numbers p))
                  (row_organization_name (numbers q));
         text_cmp (row_city (numbers p)) (row_city (numbers q));
         nullable_text_cmp (row_region_code (numbers p))
                           (row_region_code (numbers q));
         text_cmp (row_zipcode (numbers p)) (row_zipcode (numbers q)) ]).
Proof.
  intros Hij Hp Hq.
  pose proof (leaderboard_scope_not_after c db i j p q Hij Hp Hq) as Hle.
  unfold not_after, leaderboard_order in Hle.
  destruct (Z.compare_spec (credits q) (credits p)) as [Heq|Hlt|Hgt]; cbn in Hle.
  - split; [lia|]. intros _. by apply tie_break_in_order.
  - split; [lia|]. lia.
  - done.
Qed.

Lemma leaderboard_scope_ordered_witness :
  let rows := @leaderboard_scope c_locale unweighted_contest sample_db in
  ∃ p q, rows !! 0%nat = Some p ∧ rows !! 1%nat = Some q
         ∧ row_organization_name (numbers p) = "Banana"
         ∧ row_organization_name (numbers q) = "apple"
         ∧ credits q ≤ credits p.
Proof.
  intros rows.
  destruct (rows !! 0%nat) as [p|] eqn:Hp; [|by vm_compute in Hp].
  destruct (rows !! 1%nat) as [q|] eqn:Hq; [|by vm_compute in Hq].
  exists p, q. split_and!; try done.
  - vm_compute in Hp. by injection Hp as <-.
  - vm_compute in Hq. by injection Hq as <-.
  - exact (proj1 (@leaderboard_scope_ordered c_locale _ unweighted_contest
                    sample_db 0 1 p q (Nat.lt_0_succ 0) Hp Hq)).
Defined.

(** C7 as stated fails.  With the byte-wise collation and equal credits,
    [Banana] is listed before [apple], while the order that ignores case
    puts [apple] first. *)
Lemma case_insensitive_order_refuted :
  let rows := @leaderboard_scope c_locale unweighted_contest sample_db in
  (row_organization_name ∘ numbers) <$> rows = ["Banana"; "apple"; "cherry"]
  ∧ credits <$> rows = [0; 0; 0]
  ∧ @ci_text_cmp c_locale "Banana" "apple" = Gt
  ∧ ¬ in_order [ @ci_text_cmp c_locale "Banana" "apple" ].
Proof.
  split_and!; [reflexivity..|].
  vm_compute. intros [|[]]; done.
Qed.

(** ** The rows handed to [calculate_ranks]

    [leaderboard_calc] ranks the rows of [leaderboard_scope]: they are in
    descending order of credits, and their credits are not negative when
    the weights are not (as the model validates) and no shipment has a
    negative number of units. *)

Lemma StronglySorted_weaken {A : Type} (R S : relation A) (l : list A) :
  (∀ x y, R x y → S x y) → StronglySorted R l → StronglySorted S l.
Proof.
  intros HRS. induction 1 as [|x l Hs IH Hall]; constructor; [done|].
  eapply Forall_impl; [exact Hall|]. intros y Hy. by apply HRS.
Qed.

Lemma leaderboard_scope_credits_desc `{Collation} (c : Contest) (db : Database) :
  StronglySorted credits_desc (leaderboard_scope c db).
Proof.
  eapply StronglySorted_weaken; [|apply (order_by_sorted leaderboard_order)].
  intros p q. unfold not_after, leaderboard_order, credits_desc.
  destruct (Z.compare_spec (credits q) (credits p)); cbn; [lia|lia|done].
Qed.

Lemma sum_units_nonneg (rows : list (Shipment * Collection)) :
  Forall (λ r, 0 ≤ default 0 (units_collected r.1)) rows → 0 ≤ sum_units rows.
Proof.
  unfold sum_units. induction 1 as [|r rows Hr _ IH]; [done|].
  cbn [foldr]. cbn beta in Hr. lia.
Qed.

Lemma leaderboard_scope_credits_nonneg `{Adapter} (c : Contest) (db : Database) :
  0 ≤ credits_by_shipment c → 0 ≤ credits_by_vote c → 0 ≤ credits_by_unit c →
  Forall (λ s, 0 ≤ default 0 (units_collected s)) (shipments db) →
  Forall (λ p, 0 ≤ credits p) (leaderboard_scope c db).
Proof.
  intros Hs Hv Hu Hunits. apply Forall_forall.
  intros r [Hn ->]%elem_of_leaderboard_scope.
  unfold raw_numbers in Hn.
  apply elem_of_remove_dups, list_elem_of_fmap in Hn as (row & -> & _).
  unfold credits_of. cbn.
  assert (0 ≤ sum_units (profile_shipments c db (profile_id (c_profile row)))).
  { apply sum_units_nonneg, Forall_forall. intros [s col] Hin.
    apply list_elem_of_filter in Hin as [_ Hin].
    apply elem_of_allowed_shipments in Hin as (Hin & _).
    rewrite Forall_forall in Hunits. by apply Hunits. }
  nia.
Qed.

(** * Participant search *)

Lemma list_ascii_of_string_app (s t : string) :
  list_ascii_of_string (s +:+ t)
  = (list_ascii_of_string s ++ list_ascii_of_string t)%list.
Proof.
  induction s as [|a s IH]; [done|].
  change (String a s +:+ t) with (String a (s +:+ t)). cbn. by rewrite IH.
Qed.

Section ilike.
Context `{Adapter}.
Implicit Types (c d : ascii) (pattern s : list ascii).

Lemma ilike_percent_cons pattern d s :
  ilike ("%"%char :: pattern) (d :: s)
  = ilike pattern (d :: s) || ilike ("%"%char :: pattern) s.
Proof. reflexivity. Qed.

Lemma ilike_percent_nil pattern :
  ilike ("%"%char :: pattern) [] = ilike pattern [].
Proof. cbn. apply orb_false_r. Qed.

Lemma ilike_escaped c pattern s :
  ilike ("\"%char :: c :: pattern) s
  = match s with
    | [] => false
    | d :: s' => bool_decide (fold_case c = fold_case d) && ilike pattern s'
    end.
Proof. reflexivity. Qed.

Lemma ilike_literal c pattern s :
  c ≠ "%"%char → c ≠ "_"%char → c ≠ "\"%char →
  ilike (c :: pattern) s
  = match s with
    | [] => false
    | d :: s' => bool_decide (fold_case c = fold_case d) && ilike pattern s'
    end.
Proof. intros. cbn [ilike]. by rewrite !decide_False. Qed.

(** [%] lets any prefix of the text go. *)
Lemma ilike_percent pattern s :
  ilike ("%"%char :: pattern) s = true ↔
    ∃ before s', s = (before ++ s')%list ∧ ilike pattern s' = true.
Proof.
  induction s as [|d s IH].
  - rewrite ilike_percent_nil. split.
    + intros Hp. by exists [], [].
    + intros (before & s' & Hs & Hp).
      symmetry in Hs. by apply app_eq_nil in Hs as [-> ->].
  - rewrite ilike_percent_cons, orb_true_iff, IH. split.
    + intros [Hp|(before & s' & -> & Hp)].
      * by exists [], (d :: s).
      * by exists (d :: before), s'.
    + intros ([|d' before] & s' & Hs & Hp); cbn in Hs.
      * left. by subst.
      * right. injection Hs as -> ->. eauto.
  Qed.

Lemma ilike_percent_only s : ilike ["%"%char] s = true.
Proof. apply ilike_percent. by exists s, []; rewrite app_nil_r. Qed.

(** An escaped query stands for itself, up to case. *)
Lemma ilike_sanitized (query pattern s : list ascii) :
  ilike (sanitize_sql_like_chars query ++ pattern) s = true ↔
    ∃ mid s', s = (mid ++ s')%list
              ∧ fold_case <$> mid = fold_case <$> query
              ∧ ilike pattern s' = true.
Proof.
  revert s. induction query as [|c query IH]; intros s.
  - cbn. split.
    + intros Hp. by exists [], s.
    + by intros ([|] & s' & -> & Hmid & Hp).
  - assert (ilike (sanitize_sql_like_chars (c :: query) ++ pattern) s
            = match s with
              | [] => false
              | d :: s' =>
                  bool_decide (fold_case c = fold_case d)
                  && ilike (sanitize_sql_like_chars query ++ pattern) s'
              end) as ->.
    { cbn [sanitize_sql_like_chars]. case_bool_decide as Hc; cbn [app].
      - apply ilike_escaped.
      - apply ilike_literal; naive_solver. }
    destruct s as [|d s].
    + split; [done|]. by intros ([|] & s' & Hs & Hmid & Hp).
    + rewrite andb_true_iff, bool_decide_eq_true, IH. split.
      * intros (Hcd & mid & s' & -> & Hmid & Hp).
        exists (d :: mid), s'. cbn. by rewrite Hcd, Hmid.
      * intros ([|d' mid] & s' & Hs & Hmid & Hp); [done|].
        cbn in Hs, Hmid. injection Hs as -> ->. injection Hmid as Hcd Hmid.
        eauto 10.
Qed.

(** The condition the controller's search puts on one text column. *)
Lemma ILIKE_sanitized_query (value query : string) :
  ILIKE value ("%" +:+ sanitize_sql_like query +:+ "%") = true ↔
    contains_ci value query.
Proof.
  unfold ILIKE, contains_ci, sanitize_sql_like.
  rewrite !list_ascii_of_string_app, list_ascii_of_string_of_list_ascii.
  change (list_ascii_of_string "%") with ["%"%char]. cbn [app].
  rewrite ilike_percent. split.
  - intros (before & s' & Hs & (mid & after & -> & Hmid & _)%ilike_sanitized).
    eauto.
  - intros (before & mid & after & Hs & Hmid).
    exists before, (mid ++ after)%list. split; [done|].
    apply ilike_sanitized. exists mid, after.
    split_and!; [done..|apply ilike_percent_only].
Qed.
End ilike.

Section participant_search.
Context `{Adapter}.
Implicit Types (c : Contest) (db : Database) (r : Contestant).


Lemma elem_of_contestant_list c db r :
  r ∈ contestant_list c db ↔
    c_profile r ∈ allowed_profiles c db
    ∧ c_region r ∈ left_join_regions db (c_profile r)
    ∧ c_user r ∈ users db
    ∧ user_id (c_user r) = profile_user_id (c_profile r)
    ∧ c_collection r ∈ allowed_collections c db
    ∧ collection_profile_id (c_collection r) = profile_id (c_profile r).
Proof.
  unfold contestant_list. split.
  - intros (p & Hr & Hp)%list_elem_of_bind.
    apply list_elem_of_bind in Hr as (reg & Hr & Hreg).
    apply list_elem_of_bind in Hr as (u & Hr & Hu).
    apply list_elem_of_bind in Hr as (col & Hr & Hcol).
    apply list_elem_of_singleton in Hr as ->. cbn.
    apply list_elem_of_filter in Hu as [? ?].
    apply list_elem_of_filter in Hcol as [? ?]. done.
  - destruct r as [p reg u col]. cbn. intros (Hp & Hreg & Hu & Hup & Hcol & Hcp).
    apply list_elem_of_bind. exists p. split; [|done].
    apply list_elem_of_bind. exists reg. split; [|done].
    apply list_elem_of_bind. exists u. split; [|by apply list_elem_of_filter].
    apply list_elem_of_bind. exists col. split; [|by apply list_elem_of_filter].
    by apply list_elem_of_singleton.
Qed.

(** Every contestant has its row in the leaderboard. *)
Lemma contestant_row_in_leaderboard c db r :
  r ∈ contestant_list c db →
  {| numbers := raw_numbers_row c db r;
     credits := credits_of c (raw_numbers_row c db r) |} ∈ leaderboard_scope c db.
Proof.
  intros Hr. apply elem_of_leaderboard_scope. split; [|done]. cbn.
  unfold raw_numbers. apply elem_of_remove_dups. by apply list_elem_of_fmap_2.
Qed.


End participant_search.



(** [participant_search] itself takes its argument as a pattern: it is the
    controller that escapes the query. *)
Example participant_search_pattern :
  let c := sample_contest "" false [] false in
  @participant_search c_locale c sample_db "_" = [banana; apple; cherry]
  ∧ @participants c_locale c sample_db "_" = [].
Proof. split; reflexivity. Qed.

(** * Leaderboard cache and recompute queue *)

Lemma invalidate_leaderboard_cache c w :
  rails_cache (invalidate_leaderboard c w) = rails_cache w
  ∧ country_code (invalidate_leaderboard c w) = country_code w.
Proof. unfold invalidate_leaderboard. by destruct (leaderboard_display_address c). Qed.

Lemma invalidate_leaderboard_resque c w :
  resque (invalidate_leaderboard c w)
  = if leaderboard_display_address c
    then (resque w ++ [ContestGenerateLeaderboard (id c)])%list
    else resque w.
Proof. unfold invalidate_leaderboard. by destruct (leaderboard_display_address c). Qed.

(** C4 (as the code has it).  A read that finds no entry under the
    contest's key returns the empty list, the very value a read returns
    when an empty leaderboard is cached; it leaves the cache as it was and
    asks for a recompute (one job more when [leaderboard_display_address]
    is set, none otherwise).  A read that finds an entry returns it and
    changes nothing. *)
Theorem leaderboard_read (c : Contest) (w : World) :
  (rails_cache w !! leaderboard_cache_key w c = None →
   (leaderboard c w).1 = []
   ∧ (leaderboard c w).2 = invalidate_leaderboard c w
   ∧ rails_cache (leaderboard c w).2 = rails_cache w
   ∧ resque (leaderboard c w).2
     = (if leaderboard_display_address c
        then (resque w ++ [ContestGenerateLeaderboard (id c)])%list
        else resque w)
   ∧ ∀ w', rails_cache w' !! leaderboard_cache_key w' c = Some [] →
           (leaderboard c w').1 = (leaderboard c w).1)
  ∧ (∀ entries,
        rails_cache w !! leaderboard_cache_key w c = Some entries →
        leaderboard c w = (entries, w)).
Proof.
  unfold leaderboard. split.
  - intros ->. cbn. split_and!; [done..| |apply invalidate_leaderboard_resque|].
    + apply invalidate_leaderboard_cache.
    + by intros w' ->.
  - by intros entries ->.
Qed.

Lemma leaderboard_read_witness :
  let c := sample_contest "" false [] true in
  (leaderboard c (sample_world ∅)).1 = []
  ∧ resque (leaderboard c (sample_world ∅)).2 = [ContestGenerateLeaderboard 7].
Proof.
  intros c.
  pose proof (proj1 (leaderboard_read c (sample_world ∅)) (lookup_empty _))
    as (Hempty & _ & _ & Hjobs & _).
  split; [exact Hempty|exact Hjobs].
Defined.

(** C4 as stated fails.  With nothing cached the read returns the empty
    list, and a read of a cached empty leaderboard returns the same. *)
Lemma cache_miss_marker_refuted :
  let c := sample_contest "" false [] true in
  let miss := sample_world ∅ in
  let hit := sample_world {[ "us_contest/7/leaderboard" := [] ]} in
  rails_cache miss !! leaderboard_cache_key miss c = None
  ∧ rails_cache hit !! leaderboard_cache_key hit c = Some []
  ∧ (leaderboard c miss).1 = []
  ∧ (leaderboard c hit).1 = (leaderboard c miss).1.
Proof.
  intros c miss hit.
  assert (rails_cache hit !! leaderboard_cache_key hit c = Some []) as Hhit.
  { change (leaderboard_cache_key hit c) with "us_contest/7/leaderboard".
    apply lookup_singleton_eq. }
  split_and!; [apply lookup_empty|exact Hhit|done|].
  unfold leaderboard. rewrite Hhit. cbn. by rewrite lookup_empty.
Qed.

Lemma pending_recomputes_enqueue c w :
  pending_recomputes c (enqueue (ContestGenerateLeaderboard (id c)) w)
  = S (pending_recomputes c w).
Proof.
  unfold pending_recomputes, enqueue. cbn.
  rewrite filter_app, length_app. cbn. rewrite decide_True by done. cbn. lia.
Qed.

(** C9 (as the code has it).  Every invalidation of a contest whose
    [leaderboard_display_address] is set pushes one recompute job: after
    [n] invalidations the queue holds [n] jobs more for the contest, none
    merged with another, and the cache is untouched. *)
Theorem invalidations_enqueue_one_job_each (c : Contest) (w : World) (n : nat) :
  leaderboard_display_address c = true →
  resque (Nat.iter n (invalidate_leaderboard c) w)
  = (resque w ++ replicate n (ContestGenerateLeaderboard (id c)))%list
  ∧ pending_recomputes c (Nat.iter n (invalidate_leaderboard c) w)
    = (pending_recomputes c w + n)%nat
  ∧ rails_cache (Nat.iter n (invalidate_leaderboard c) w) = rails_cache w.
Proof.
  intros Hflag. induction n as [|n (IHq & IHp & IHc)].
  - cbn. by rewrite app_nil_r, Nat.add_0_r.
  - rewrite Nat.iter_succ. set (w' := Nat.iter n (invalidate_leaderboard c) w) in *.
    assert (invalidate_leaderboard c w'
            = enqueue (ContestGenerateLeaderboard (id c)) w') as ->.
    { unfold invalidate_leaderboard. by rewrite Hflag. }
    split_and!.
    + unfold enqueue. cbn [resque]. by rewrite IHq, replicate_S_end, app_assoc.
    + rewrite pending_recomputes_enqueue, IHp. lia.
    + done.
Qed.

Lemma invalidations_enqueue_one_job_each_witness :
  let c := sample_contest "" false [] true in
  pending_recomputes c (Nat.iter 3 (invalidate_leaderboard c) (sample_world ∅))
  = 3%nat.
Proof.
  intros c.
  exact (proj1 (proj2 (invalidations_enqueue_one_job_each c (sample_world ∅) 3
                         eq_refl))).
Defined.

(** C9 as stated fails.  While the one recompute of a contest is being
    performed (the queue is empty), two invalidations leave two recompute
    jobs of the contest in the queue, not one. *)
Lemma coalesced_recompute_refuted :
  let c := sample_contest "" false [] true in
  let w := invalidate_leaderboard c (invalidate_leaderboard c (sample_world ∅)) in
  resque w = [ContestGenerateLeaderboard 7; ContestGenerateLeaderboard 7]
  ∧ pending_recomputes c w = 2%nat
  ∧ pending_recomputes c w ≠ 1%nat.
Proof. split_and!; [reflexivity..|done]. Qed.

(** C10.  For a contest whose [leaderboard_display_address] is unset,
    invalidating changes nothing: no job is pushed.  A read that finds no
    entry then returns the empty list and leaves the cache and the queue
    as they were, so the next read finds no entry either, however many
    reads follow. *)
Theorem display_address_unset_never_recomputes (c : Contest) (w : World) :
  leaderboard_display_address c = false →
  invalidate_leaderboard c w = w
  ∧ (rails_cache w !! leaderboard_cache_key w c = None →
     leaderboard c w = ([], w)
     ∧ ∀ n, Nat.iter n (λ w, (leaderboard c w).2) w = w).
Proof.
  intros Hflag.
  assert (invalidate_leaderboard c w = w) as Hinv.
  { unfold invalidate_leaderboard. by rewrite Hflag. }
  split; [done|]. intros Hmiss.
  assert (leaderboard c w = ([], w)) as Hread.
  { unfold leaderboard. by rewrite Hmiss, Hinv. }
  split; [done|]. intros n. induction n as [|n IH]; [done|].
  rewrite Nat.iter_succ. by rewrite IH, Hread.
Qed.

Lemma display_address_unset_never_recomputes_witness :
  let c := sample_contest "" false [] false in
  leaderboard c (sample_world ∅) = ([], sample_world ∅).
Proof.
  intros c.
  exact (proj1 (proj2 (display_address_unset_never_recomputes c (sample_world ∅)
                         eq_refl) (lookup_empty _))).
Defined.

(** * The order of the leaderboard under a strict collation

    The byte-wise collation is not particular: whenever the collation
    never ties two distinct texts, organization names that differ in case
    only are ordered before the city is looked at. *)

Section strict_collation.
Context `{Collation}.

Lemma text_cmp_refl s : text_cmp s s = Eq.
Proof.
  pose proof (text_cmp_spec s s) as Hs.
  destruct (text_cmp s s); [done|destruct Hs; congruence..].
Qed.

Lemma two_contestants_listed org1 town1 org2 town2 pid col :
  (pid = 1 ∧ col = 100) ∨ (pid = 2 ∧ col = 101) →
  let db := two_contestants_db org1 town1 org2 town2 in
  ∀ p, p ∈ profiles db → profile_id p = pid →
  {| c_profile := p; c_region := None;
     c_user := {| user_id := pid; first_name := ""; last_name := "";
                  current_profile := pid |};
     c_collection := sample_collection col pid |}
    ∈ contestant_list unweighted_contest db.
Proof.
  intros Hpid db p Hp Hid. apply elem_of_contestant_list.
  cbn [c_profile c_region c_user c_collection user_id].
  assert (profile_user_id p = pid) as Hu.
  { apply elem_of_cons in Hp as [->|Hp]; [done|].
    by apply list_elem_of_singleton in Hp as ->. }
  split_and!; [|by apply list_elem_of_singleton| |done| |done].
  - apply elem_of_allowed_profiles. split_and!; [done|done|]. by intros _.
  - destruct Hpid as [[-> ->]|[-> ->]]; cbn; set_solver.
  - apply elem_of_allowed_collections. cbn.
    destruct Hpid as [[-> ->]|[-> ->]]; split_and!; set_solver.
Qed.

Lemma two_contestants_in_order org1 town1 org2 town2 :
  text_cmp org1 org2 = Lt →
  ∃ i j p q,
    (i < j)%nat
    ∧ leaderboard_scope unweighted_contest
        (two_contestants_db org1 town1 org2 town2) !! i = Some p
    ∧ leaderboard_scope unweighted_contest
        (two_contestants_db org1 town1 org2 town2) !! j = Some q
    ∧ credits p = credits q
    ∧ row_organization_name (numbers p) = org1 ∧ row_city (numbers p) = town1
    ∧ row_organization_name (numbers q) = org2 ∧ row_city (numbers q) = town2.
Proof.
  intros Hlt. set (db := two_contestants_db org1 town1 org2 town2).
  pose proof (two_contestants_listed org1 town1 org2 town2 1 100
                (or_introl (conj eq_refl eq_refl))
                (sample_profile 1 1 org1 town1 None)) as H1.
  pose proof (two_contestants_listed org1 town1 org2 town2 2 101
                (or_intror (conj eq_refl eq_refl))
                (sample_profile 2 2 org2 town2 None)) as H2.
  cbn zeta in H1, H2. fold db in H1, H2.
  apply contestant_row_in_leaderboard, list_elem_of_lookup_1 in H1 as [i Hi];
    [|set_solver|done].
  apply contestant_row_in_leaderboard, list_elem_of_lookup_1 in H2 as [j Hj];
    [|set_solver|done].
  destruct (Nat.lt_total i j) as [Hij|[->|Hji]].
  - do 4 eexists. split_and!; [exact Hij|exact Hi|exact Hj|done..].
  - rewrite Hi in Hj. by injection Hj.
  - pose proof (leaderboard_scope_not_after _ _ _ _ _ _ Hji Hj Hi) as Hord.
    unfold not_after, leaderboard_order, tie_break_order in Hord. cbn in Hord.
    by rewrite (cmp_opp text_cmp org1 org2), Hlt in Hord.
Qed.

Lemma case_insensitive_order_refuted_strict :
  (∀ s t, text_le s t = true → text_le t s = true → s = t) →
  fold_case "a" = fold_case "A" →
  fold_case "a" ≠ fold_case "b" →
  ∃ db i j p q,
    (i < j)%nat
    ∧ leaderboard_scope unweighted_contest db !! i = Some p
    ∧ leaderboard_scope unweighted_contest db !! j = Some q
    ∧ credits p = credits q
    ∧ ci_text_cmp (row_organization_name (numbers p))
                  (row_organization_name (numbers q)) = Eq
    ∧ ci_text_cmp (row_city (numbers p)) (row_city (numbers q)) = Gt.
Proof.
  intros Hstrict HaA Hab.
  assert (∀ s t, s ≠ t → text_cmp s t = Lt ∨ text_cmp t s = Lt) as Hne.
  { intros s t Hst. pose proof (text_cmp_spec s t) as Hs.
    rewrite (cmp_opp text_cmp s t).
    destruct (text_cmp s t); cbn; [|by left|by right].
    destruct Hs as [Hle Hge]. destruct Hst. by apply Hstrict. }
  assert (ci_text_cmp "a" "A" = Eq ∧ ci_text_cmp "A" "a" = Eq) as [HciaA HciAa].
  { unfold ci_text_cmp, fold_text. cbn. rewrite HaA. split; apply text_cmp_refl. }
  assert (∃ x y, ci_text_cmp x y = Gt) as (x & y & Hxy).
  { destruct (Hne (fold_text "a") (fold_text "b")) as [Hlt|Hlt].
    - unfold fold_text. cbn. congruence.
    - exists "b", "a". unfold ci_text_cmp.
      by rewrite (cmp_opp text_cmp (fold_text "a") (fold_text "b")), Hlt.
    - exists "a", "b". unfold ci_text_cmp.
      by rewrite (cmp_opp text_cmp (fold_text "b") (fold_text "a")), Hlt. }
  destruct (Hne "a" "A") as [Hlt|Hlt]; [done|..].
  - destruct (two_contestants_in_order "a" x "A" y Hlt)
      as (i & j & p & q & Hij & Hi & Hj & Hc & Ho1 & Ht1 & Ho2 & Ht2).
    exists (two_contestants_db "a" x "A" y), i, j, p, q.
    by rewrite Ho1, Ht1, Ho2, Ht2.
  - destruct (two_contestants_in_order "A" x "a" y Hlt)
      as (i & j & p & q & Hij & Hi & Hj & Hc & Ho1 & Ht1 & Ho2 & Ht2).
    exists (two_contestants_db "A" x "a" y), i, j, p, q.
    by rewrite Ho1, Ht1, Ho2, Ht2.
Qed.
End strict_collation.

(** * Scopes on the dates of a contest *)

Lemma correct_start_end_order_passes (first last : option Z) :
  correct_start_end_order first last = [] ↔
    ∀ f l, first = Some f → last = Some l → f < l.
Proof.
  unfold correct_start_end_order. destruct last as [l|], first as [f|];
    try (split; [by intros|done]).
  case_decide; split; try done.
  - intros Hlt. specialize (Hlt f l eq_refl eq_refl). lia.
  - intros _ f' l' [= <-] [= <-]. lia.
Qed.

(** X1.  On every date, a contest whose dates pass
    [correct_start_end_order?] is in exactly one of the scopes
    [upcoming], [active] and [finished]. *)
Theorem contest_in_one_date_scope (date : Z) (scope : list Contest) (c : Contest) :
  c ∈ scope →
  correct_start_end_order (Some (first_day c)) (Some (last_day c)) = [] →
  (c ∈ upcoming date scope ∧ (c ∉ active date scope) ∧ (c ∉ finished date scope))
  ∨ ((c ∉ upcoming date scope) ∧ c ∈ active date scope ∧ (c ∉ finished date scope))
  ∨ ((c ∉ upcoming date scope) ∧ (c ∉ active date scope) ∧ c ∈ finished date scope).
Proof.
  intros Hc Hvalid.
  pose proof (proj1 (correct_start_end_order_passes _ _) Hvalid _ _ eq_refl eq_refl).
  unfold upcoming, active, finished. rewrite !list_elem_of_filter.
  destruct (Z.lt_trichotomy date (first_day c)) as [?|[?|?]];
    [left|right..]; [|destruct (decide (date ≤ last_day c)); [left|right]..];
    split_and!; try done; try lia; intros []; lia.
Qed.

Lemma contest_in_one_date_scope_witness :
  let c := sample_contest "" false [] false in
  (c ∉ upcoming 4 [c]) ∧ c ∈ active 4 [c] ∧ (c ∉ finished 4 [c]).
Proof.
  intros c.
  destruct (contest_in_one_date_scope 4 [c] c ltac:(by_running) eq_refl)
    as [(Hu & _)|[H|(_ & _ & Hf)]].
  - exfalso. apply list_elem_of_filter in Hu as [Hu _]. vm_compute in Hu. done.
  - exact H.
  - exfalso. apply list_elem_of_filter in Hf as [Hf _]. vm_compute in Hf. done.
Defined.

(** A contest with inverted dates is at once finished and upcoming on the
    dates in between: the validation is what excludes it. *)
Example inverted_dates_two_scopes :
  let c := {| id := 1; first_day := 10; last_day := 0;
              credits_by_shipment := 0; credits_by_vote := 0;
              credits_by_unit := 0; users_list_ids := "";
              users_list_white := false; select_options := [];
              regions := []; brigade_ids := []; leaderboard_enabled := false;
              leaderboard_display_address := false |} in
  c ∈ finished 5 [c] ∧ c ∈ upcoming 5 [c]
  ∧ correct_start_end_order (Some (first_day c)) (Some (last_day c)) ≠ [].
Proof. split_and!; [by_running..|done]. Qed.

(** * The listed ids *)

Section list_ids.
Implicit Types (s w : list ascii) (ws : list (list ascii)).

Lemma split_on_fresh sep w : sep ∉ w → split_on sep w = [w].
Proof.
  induction w as [|c w IH]; [done|]. intros [Hc Hw]%not_elem_of_cons.
  cbn. rewrite decide_False by done. by rewrite IH.
Qed.

Lemma split_on_app sep w rest :
  sep ∉ w → split_on sep (w ++ sep :: rest) = w :: split_on sep rest.
Proof.
  induction w as [|c w IH]; cbn.
  - intros _. by rewrite decide_True.
  - intros [Hc Hw]%not_elem_of_cons. rewrite decide_False by done. by rewrite IH.
Qed.

Lemma split_on_fields sep s :
  Forall (λ w, (sep ∉ w) ∧ ∀ x, x ∈ w → x ∈ s) (split_on sep s).
Proof.
  induction s as [|c s IH]; cbn.
  - constructor; [|constructor]. split; [set_solver|done].
  - case_decide as Hc.
    + constructor; [split; [set_solver|by intros x ?%not_elem_of_nil]|].
      eapply Forall_impl; [exact IH|]. cbn. intros w [? Hw]. split; [done|].
      intros x Hx. right. by apply Hw.
    + destruct (split_on sep s) as [|w ws].
      * constructor; [|constructor]. split; set_solver.
      * apply Forall_cons in IH as [[Hw Hin] IH]. constructor.
        -- split; [set_solver|]. intros x [->|Hx]%elem_of_cons; [by left|].
           right. by apply Hin.
        -- eapply Forall_impl; [exact IH|]. cbn. intros w' [? Hw']. split; [done|].
           intros x Hx. right. by apply Hw'.
Qed.

Lemma split_on_all_empty sep s :
  Forall (λ w, w = []) (split_on sep s) ↔ Forall (λ x, x = sep) s.
Proof.
  induction s as [|c s IH]; cbn.
  - split; [constructor|by repeat constructor].
  - case_decide as Hc.
    + rewrite !Forall_cons, IH. naive_solver.
    + split.
      * destruct (split_on sep s); by intros [[=] _]%Forall_cons.
      * by intros [? _]%Forall_cons.
Qed.

Lemma drop_trailing_empty_cons w ws :
  drop_trailing_empty (w :: ws)
  = match w, drop_trailing_empty ws with
    | [], [] => []
    | _, acc => w :: acc
    end.
Proof. unfold drop_trailing_empty. cbn. by destruct w, (foldr _ _ ws). Qed.

Lemma drop_trailing_empty_sub ws w : w ∈ drop_trailing_empty ws → w ∈ ws.
Proof.
  induction ws as [|w' ws IH]; [done|]. rewrite drop_trailing_empty_cons.
  destruct w', (drop_trailing_empty ws); set_solver.
Qed.

Lemma drop_trailing_empty_last ws : last (drop_trailing_empty ws) ≠ Some [].
Proof.
  induction ws as [|w ws IH]; [done|]. rewrite drop_trailing_empty_cons.
  destruct w, (drop_trailing_empty ws) eqn:E; cbn in *; try done.
Qed.

Lemma drop_trailing_empty_nil ws :
  drop_trailing_empty ws = [] ↔ Forall (λ w, w = []) ws.
Proof.
  induction ws as [|w ws IH]; [done|]. rewrite drop_trailing_empty_cons, Forall_cons.
  destruct w, (drop_trailing_empty ws); naive_solver.
Qed.

Lemma drop_trailing_empty_id ws :
  Forall (λ w, w ≠ []) ws → drop_trailing_empty ws = ws.
Proof.
  induction 1 as [|w ws Hw _ IH]; [done|]. rewrite drop_trailing_empty_cons, IH.
  by destruct w, ws.
Qed.

Lemma delete_char_fresh c s : c ∉ s → delete_char c s = s.
Proof.
  unfold delete_char. induction s as [|x s IH]; [done|].
  intros [Hx Hs]%not_elem_of_cons. rewrite filter_cons_True by done. by rewrite IH.
Qed.

Lemma elem_of_list_ids c (id : string) :
  id ∈ list_ids c →
  ∃ w, id = string_of_list_ascii w ∧ (","%char ∉ w)
       ∧ ∀ x, x ∈ w → x ≠ " "%char ∧ x ∈ list_ascii_of_string (users_list_ids c).
Proof.
  unfold list_ids, ruby_split.
  intros (w & -> & Hw%drop_trailing_empty_sub)%list_elem_of_fmap.
  exists w. split; [done|].
  pose proof (split_on_fields ","
                (delete_char " " (list_ascii_of_string (users_list_ids c)))) as Hf.
  rewrite Forall_forall in Hf. destruct (Hf w Hw) as [Hsep Hin].
  split; [done|]. intros x Hx. apply Hin, list_elem_of_filter in Hx. done.
Qed.
End list_ids.

(** X2.  Whatever the text of [users_list_ids], no id of [list_ids] holds
    a space or a comma and the last id is not empty; [list_ids] is empty,
    which is what lifts the restriction of the list, exactly when the
    text holds nothing but spaces and commas. *)
Theorem list_ids_fields (c : Contest) :
  (∀ id, id ∈ list_ids c → free_of " " id ∧ free_of "," id)
  ∧ last (list_ids c) ≠ Some ""
  ∧ (list_ids c = [] ↔
       ∀ x, x ∈ list_ascii_of_string (users_list_ids c) →
            x = " "%char ∨ x = ","%char).
Proof.
  split_and!.
  - intros id (w & -> & Hcomma & Hw)%elem_of_list_ids. unfold free_of.
    rewrite list_ascii_of_string_of_list_ascii. split; [|done].
    intros Hsp. by destruct (Hw _ Hsp).
  - unfold list_ids, ruby_split. rewrite fmap_last.
    destruct (last (drop_trailing_empty _)) as [w|] eqn:Hl; [|done]. cbn.
    intros [= Hw]. destruct w; [|done]. by apply drop_trailing_empty_last in Hl.
  - unfold list_ids, ruby_split.
    transitivity (drop_trailing_empty
                    (split_on ","
                       (delete_char " " (list_ascii_of_string (users_list_ids c))))
                  = []).
    { split; [apply fmap_nil_inv|by intros ->]. }
    rewrite drop_trailing_empty_nil, split_on_all_empty, Forall_forall.
    unfold delete_char. split.
    + intros Hall x Hx. destruct (decide (x = " "%char)); [by left|right].
      apply Hall. by apply list_elem_of_filter.
    + intros Hall x [Hsp Hx]%list_elem_of_filter. by destruct (Hall x Hx).
Qed.

Lemma list_ascii_of_concat (sep : string) (ids : list string) :
  list_ascii_of_string (String.concat sep ids)
  = match ids with
    | [] => []
    | id :: ids' =>
        (list_ascii_of_string id
         ++ match ids' with
            | [] => []
            | _ :: _ => list_ascii_of_string sep
                        ++ list_ascii_of_string (String.concat sep ids')
            end)%list
    end.
Proof.
  destruct ids as [|id [|id' ids]]; cbn [String.concat]; [done| |].
  - by rewrite app_nil_r.
  - by rewrite !list_ascii_of_string_app.
Qed.

Lemma split_on_joined (ids : list string) :
  Forall (λ id, id ≠ "" ∧ free_of " " id ∧ free_of "," id) ids →
  ids ≠ [] →
  split_on "," (delete_char " " (list_ascii_of_string (String.concat ", " ids)))
  = list_ascii_of_string <$> ids.
Proof.
  induction 1 as [|id ids (Hne & Hsp & Hcomma) Hids IH]; [done|]. intros _.
  rewrite list_ascii_of_concat. destruct ids as [|id' ids].
  - rewrite app_nil_r, delete_char_fresh by done. by apply split_on_fresh.
  - change (list_ascii_of_string ", ") with [","%char; " "%char].
    unfold delete_char in *. rewrite !filter_app.
    change (filter _ [","%char; " "%char]) with [","%char]. cbn [app].
    fold (delete_char " " (list_ascii_of_string id)).
    rewrite delete_char_fresh by done.
    rewrite split_on_app by done. by rewrite IH.
Qed.

(** X3.  Ids that are not empty and hold no space and no comma, written
    one after the other with a comma and a space in between (as the
    administration form asks), are read back by [list_ids] as they were
    written. *)
Theorem list_ids_reads_back (c : Contest) (ids : list string) :
  Forall (λ id, id ≠ "" ∧ free_of " " id ∧ free_of "," id) ids →
  users_list_ids c = String.concat ", " ids →
  list_ids c = ids.
Proof.
  intros Hids Hc. unfold list_ids, ruby_split. rewrite Hc.
  destruct (decide (ids = [])) as [->|Hne]; [done|].
  rewrite split_on_joined by done. rewrite drop_trailing_empty_id.
  - rewrite <- list_fmap_compose. rewrite <- (list_fmap_id ids) at 2.
    apply list_fmap_ext. intros _ id _. apply string_of_list_ascii_of_string.
  - apply Forall_fmap. eapply Forall_impl; [exact Hids|].
    intros id [Hid _]. cbn. by destruct id.
Qed.

Lemma list_ids_reads_back_witness :
  list_ids (sample_contest "12345, 67890" true [] false) = ["12345"; "67890"].
Proof.
  apply list_ids_reads_back; [|reflexivity].
  repeat constructor; try done; unfold free_of; by_running.
Defined.

(** * Eligibility: the blacklist, the blank list, the order *)

Lemma column_in_spec (v : option Z) (ids : list Z) :
  column_in v ids = true ↔ ∃ x, v = Some x ∧ x ∈ ids.
Proof.
  destruct v as [x|]; cbn; [rewrite bool_decide_eq_true|]; naive_solver.
Qed.

Lemma list_ids_blank (c : Contest) :
  list_ids c = [] ↔
    ∀ x, x ∈ list_ascii_of_string (users_list_ids c) → x = " "%char ∨ x = ","%char.
Proof.
  unfold list_ids, ruby_split.
  transitivity (drop_trailing_empty
                  (split_on ","
                     (delete_char " " (list_ascii_of_string (users_list_ids c))))
                = []).
  { split; [apply fmap_nil_inv|by intros ->]. }
  rewrite drop_trailing_empty_nil, split_on_all_empty, Forall_forall.
  unfold delete_char. split.
  - intros Hall x Hx. destruct (decide (x = " "%char)); [by left|right].
    apply Hall. by apply list_elem_of_filter.
  - intros Hall x [Hsp Hx]%list_elem_of_filter. by destruct (Hall x Hx).
Qed.

Lemma not_listed_blacklisted `{Adapter} (c : Contest) (db : Database) (p : Profile) :
  users_list_white c = false →
  (list_ids c ≠ [] → ¬ listed c db p) ↔
    ∀ id u, id ∈ blacklisted c → u ∈ users db →
            user_id u = cast_integer id → current_profile u ≠ profile_id p.
Proof.
  intros Hw. unfold blacklisted. rewrite Hw. cbn. split.
  - intros Hnl id u Hid Hu Hcast Hp.
    apply Hnl; [intros E; rewrite E in Hid; by apply not_elem_of_nil in Hid|].
    apply listed_spec. exists u. split_and!; [done| |done].
    rewrite Hcast. by apply list_elem_of_fmap_2.
  - intros Hbl Hne (u & Hu & (id & Hcast & Hid)%list_elem_of_fmap & Hp)%listed_spec.
    by eapply Hbl.
Qed.

(** X4.  In blacklist mode the eligible profiles are exactly the profiles
    that are the current profile of no user named by [blacklisted], that
    have one of the contest's organization types when it names any, and
    lie in one of its regions when it names any. *)
Theorem blacklist_allowed_profiles `{Adapter} (c : Contest) (db : Database) :
  users_list_white c = false →
  ∀ p, p ∈ allowed_profiles c db ↔
         p ∈ profiles db
         ∧ (∀ id u, id ∈ blacklisted c → u ∈ users db →
                    user_id u = cast_integer id →
                    current_profile u ≠ profile_id p)
         ∧ (select_options c ≠ [] →
            ∃ t, organization_type_id p = Some t ∧ t ∈ select_options c)
         ∧ (regions c ≠ [] → ∃ r, region_id p = Some r ∧ r ∈ regions c).
Proof.
  intros Hw p. rewrite elem_of_allowed_profiles, Hw.
  rewrite (not_listed_blacklisted c db p Hw), !column_in_spec. naive_solver.
Qed.

Lemma blacklist_allowed_profiles_witness :
  let c := sample_contest "1,2" false [] false in
  cherry ∈ @allowed_profiles c_locale c sample_db.
Proof.
  intros c.
  apply (proj2 (@blacklist_allowed_profiles c_locale c sample_db eq_refl cherry)).
  split_and!; [by_running| |done..].
  intros id u Hid Hu Hcast.
  assert (id = "1" ∨ id = "2") as Hids.
  { vm_compute in Hid. set_solver. }
  repeat (apply elem_of_cons in Hu as [->|Hu]); [| | |by apply not_elem_of_nil in Hu];
    destruct Hids as [-> | ->]; vm_compute in Hcast; vm_compute; congruence.
Defined.

(** X5.  A whitelist whose text holds nothing but spaces and commas
    restricts nothing: every profile of the country is eligible, each as
    often as it is there. *)
Theorem blank_whitelist_admits_all `{Adapter} (c : Contest) (db : Database) :
  users_list_white c = true →
  (∀ x, x ∈ list_ascii_of_string (users_list_ids c) → x = " "%char ∨ x = ","%char) →
  allowed_profiles c db ≡ₚ profiles db.
Proof.
  intros Hw Hblank%list_ids_blank.
  unfold allowed_profiles, filter_by_list_ids. rewrite Hw, Hblank. cbn.
  apply merge_sort_Permutation.
Qed.

Lemma blank_whitelist_admits_all_witness :
  @allowed_profiles c_locale (sample_contest " , " true [5] false) sample_db
  ≡ₚ profiles sample_db.
Proof.
  apply (@blank_whitelist_admits_all c_locale); [reflexivity|].
  intros x Hx. vm_compute in Hx.
  repeat (apply elem_of_cons in Hx as [->|Hx]); auto.
  by apply not_elem_of_nil in Hx.
Defined.

(** X6.  The eligible profiles come in ascending order of organization
    name, then city, then postal code, under the collation of the
    database. *)
Theorem allowed_profiles_ordered `{Collation} (c : Contest) (db : Database)
    (i j : nat) (p q : Profile) :
  (i < j)%nat →
  allowed_profiles c db !! i = Some p →
  allowed_profiles c db !! j = Some q →
  in_order [ text_cmp (organization_name p) (organization_name q);
             text_cmp (city p) (city q);
             text_cmp (zipcode p) (zipcode q) ].
Proof.
  intros Hij Hp Hq.
  assert (not_after profile_order p q) as Hle.
  { eapply StronglySorted_lookup; [|exact Hij|exact Hp|exact Hq].
    unfold allowed_profiles. apply (order_by_sorted profile_order). }
  unfold not_after, profile_order in Hle.
  repeat (eapply then_by_in_order; [done|clear Hle; intros Hle]).
  cbn. destruct (text_cmp (zipcode p) (zipcode q)); auto. done.
Qed.

Lemma allowed_profiles_ordered_witness :
  in_order [ @text_cmp c_locale "Banana" "apple";
             @text_cmp c_locale "Albany" "Troy";
             @text_cmp c_locale "10001" "10001" ].
Proof.
  exact (@allowed_profiles_ordered c_locale _ (sample_contest "" false [] false)
           sample_db 0 1 banana apple (Nat.lt_0_succ 0) eq_refl eq_refl).
Defined.

(** * Who is on the leaderboard *)

Lemma left_join_regions_inhabited (db : Database) (p : Profile) :
  ∃ r, r ∈ left_join_regions db p.
Proof.
  unfold left_join_regions. destruct (filter _ (region_table db)) as [|r rs].
  - exists None. by apply list_elem_of_singleton.
  - exists (Some r). cbn. by left.
Qed.

Lemma elem_of_leaderboard_calc `{Adapter} (c : Contest) (db : Database)
    (row : LeaderboardRow) :
  row ∈ leaderboard_scope c db ↔
    ∃ e, e ∈ leaderboard_calc c db ∧ entry_row e = row.
Proof.
  unfold leaderboard_calc, calculate_ranks.
  rewrite <- (calculate_ranks_from_rows 0 (-1) (-1) (leaderboard_scope c db)) at 1.
  rewrite list_elem_of_fmap. naive_solver.
Qed.

Lemma elem_of_raw_numbers `{Adapter} (c : Contest) (db : Database) (n : RawNumbers) :
  n ∈ raw_numbers c db ↔ ∃ r, r ∈ contestant_list c db ∧ n = raw_numbers_row c db r.
Proof.
  unfold raw_numbers. rewrite elem_of_remove_dups, list_elem_of_fmap. naive_solver.
Qed.

Lemma leaderboard_calc_contestant `{Adapter} (c : Contest) (db : Database)
    (e : RankedEntry) :
  e ∈ leaderboard_calc c db →
  ∃ r, r ∈ contestant_list c db
       ∧ numbers (entry_row e) = raw_numbers_row c db r.
Proof.
  intros He.
  assert (entry_row e ∈ leaderboard_scope c db) as Hrow.
  { apply elem_of_leaderboard_calc. eauto. }
  apply elem_of_leaderboard_scope in Hrow as [Hn _].
  by apply elem_of_raw_numbers in Hn.
Qed.

(** X7.  A profile has an entry in the computed leaderboard exactly when
    it is eligible, its owning user exists and it has an active
    collection in one of the contest's brigades; votes and shipments
    play no part in who is listed. *)
Theorem leaderboard_calc_profiles `{Adapter} (c : Contest) (db : Database) (pid : Z) :
  (∃ e, e ∈ leaderboard_calc c db ∧ row_id (numbers (entry_row e)) = pid) ↔
    ∃ p u col,
      p ∈ allowed_profiles c db ∧ profile_id p = pid
      ∧ u ∈ users db ∧ user_id u = profile_user_id p
      ∧ col ∈ collections db ∧ collection_profile_id col = pid
      ∧ collection_active col = true ∧ brigade_id col ∈ brigade_ids c.
Proof.
  split.
  - intros (e & (r & Hr & Hn)%leaderboard_calc_contestant & <-).
    apply elem_of_contestant_list in Hr as (Hp & _ & Hu & Hup & Hcol & Hcp).
    apply elem_of_allowed_collections in Hcol as (? & ? & ?).
    exists (c_profile r), (c_user r), (c_collection r). rewrite Hn. cbn. done.
  - intros (p & u & col & Hp & <- & Hu & Hup & Hcol & Hcp & Hact & Hbr).
    destruct (left_join_regions_inhabited db p) as [reg Hreg].
    assert ({| c_profile := p; c_region := reg; c_user := u; c_collection := col |}
              ∈ contestant_list c db) as Hr.
    { apply elem_of_contestant_list. cbn. split_and!; try done.
      by apply elem_of_allowed_collections. }
    apply contestant_row_in_leaderboard, elem_of_leaderboard_calc in Hr
      as (e & He & Hrow).
    exists e. split; [done|]. by rewrite Hrow.
Qed.

(** X8.  The leaderboard keeps to the list: in blacklist mode no entry is
    the current profile of a user named by [blacklisted]; in whitelist
    mode with a list that is not blank every entry is the current profile
    of a listed user. *)
Theorem leaderboard_calc_respects_list `{Adapter} (c : Contest) (db : Database)
    (e : RankedEntry) :
  e ∈ leaderboard_calc c db →
  (∀ id u, id ∈ blacklisted c → u ∈ users db → user_id u = cast_integer id →
           current_profile u ≠ row_id (numbers (entry_row e)))
  ∧ (users_list_white c = true → list_ids c ≠ [] →
     ∃ u, u ∈ users db ∧ user_id u ∈ cast_integer <$> list_ids c
          ∧ current_profile u = row_id (numbers (entry_row e))).
Proof.
  intros (r & Hr & Hn)%leaderboard_calc_contestant. rewrite Hn. cbn.
  apply elem_of_contestant_list in Hr as (Hp & _).
  apply elem_of_allowed_profiles in Hp as (_ & Hlist & _). split.
  - destruct (users_list_white c) eqn:Hw.
    + unfold blacklisted. rewrite Hw. by intros id u ?%not_elem_of_nil.
    + by apply not_listed_blacklisted.
  - intros Hw Hne. rewrite Hw in Hlist. by apply listed_spec, Hlist.
Qed.

Lemma leaderboard_calc_respects_list_witness :
  let c := sample_contest "1,2" true [] false in
  ∃ e, e ∈ @leaderboard_calc c_locale c sample_db
       ∧ ∃ u, u ∈ users sample_db
              ∧ current_profile u = row_id (numbers (entry_row e)).
Proof.
  intros c.
  destruct (@leaderboard_calc c_locale c sample_db) as [|e l] eqn:Hl;
    [by vm_compute in Hl|].
  assert (e ∈ @leaderboard_calc c_locale c sample_db) as He.
  { rewrite Hl. by left. }
  exists e. split; [by rewrite <- Hl|].
  destruct (proj2 (@leaderboard_calc_respects_list c_locale c sample_db e He)
              eq_refl ltac:(vm_compute; discriminate)) as (u & Hu & _ & Hcur).
  by exists u.
Defined.

(** * Validation of the list *)





(** A list that holds one no-break space (U+00A0, the bytes C2 A0) is
    blank: no error, although the text is neither empty nor made of ASCII
    white space.  A lone byte C2 is no text, and the validation raises. *)
Example no_break_space_is_blank `{Adapter} (db : Database) :
  let nbsp := String (ascii_of_N 194) (String (ascii_of_N 160) EmptyString) in
  list_users_exist (sample_contest nbsp true [] false) db = Some []
  ∧ list_users_exist
      (sample_contest (String (ascii_of_N 194) EmptyString) true [] false) db
    = None.
Proof. done. Qed.

(** * A vote and the credits *)

Lemma active_contest_votes_with_vote (c : Contest) (db : Database)
    (v : ContestVote) (e : ContestEmail) :
  filter (λ e', contest_email_id e' = vote_contest_email_id v) (contest_emails db)
  = [e] →
  active_contest_votes c (with_vote v db)
  = (active_contest_votes c db
     ++ if bool_decide (vote_contest_id v = id c) && verified e
           && cover (interval_in_time_zone c day) (vote_created_at v)
        then [(v, e)] else [])%list.
Proof.
  intros He. unfold active_contest_votes, with_vote. cbn [contest_votes contest_emails].
  rewrite bind_app. f_equal. cbn. rewrite He. cbn. by rewrite !app_nil_r.
Qed.

Lemma profile_shipments_with_vote (c : Contest) (db : Database) (v : ContestVote)
    (pid : Z) :
  profile_shipments c (with_vote v db) pid = profile_shipments c db pid.
Proof. done. Qed.

(** X10.  Recording one more vote, whose e-mail is on record once, leaves
    the contestants as they were and adds [credits_by_vote] to the
    credits of the profile voted for when the vote is for this contest,
    its e-mail is verified and it falls in the contest's interval; it
    adds nothing otherwise, and nothing to any other profile. *)
Theorem vote_adds_credits `{Adapter} (c : Contest) (db : Database)
    (v : ContestVote) (e : ContestEmail) :
  filter (λ e', contest_email_id e' = vote_contest_email_id v) (contest_emails db)
  = [e] →
  contestant_list c (with_vote v db) = contestant_list c db
  ∧ ∀ r, credits_of c (raw_numbers_row c (with_vote v db) r)
         = credits_of c (raw_numbers_row c db r)
           + if bool_decide (profile_id (c_profile r) = vote_profile_id v)
                && (bool_decide (vote_contest_id v = id c) && verified e
                    && cover (interval_in_time_zone c day) (vote_created_at v))
             then credits_by_vote c else 0.
Proof.
  intros He. split; [done|]. intros r.
  unfold credits_of, raw_numbers_row. cbn [vote_count shipment_count units_count].
  rewrite !profile_shipments_with_vote.
  unfold profile_votes. rewrite (active_contest_votes_with_vote c db v e He).
  rewrite filter_app, length_app.
  destruct (bool_decide (vote_contest_id v = id c) && verified e
            && cover (interval_in_time_zone c day) (vote_created_at v)).
  - rewrite andb_true_r. case_bool_decide as Hp.
    + rewrite filter_cons_True by done. cbn. lia.
    + rewrite filter_cons_False by (cbn; congruence). cbn. lia.
  - rewrite !andb_false_r. cbn. lia.
Qed.

Lemma vote_adds_credits_witness :
  let c := sample_contest "" false [] false in
  let v := {| vote_contest_id := 7; vote_profile_id := 11;
              vote_contest_email_id := 1; vote_created_at := 3 * day |} in
  let r := {| c_profile := apple;
              c_region := Some {| region_pk := 5; region_code := "NY" |};
              c_user := {| user_id := 1; first_name := "John";
                           last_name := "Smith"; current_profile := 11 |};
              c_collection := sample_collection 100 11 |} in
  credits_of c (raw_numbers_row c sample_db r) = 11
  ∧ credits_of c (raw_numbers_row c (with_vote v sample_db) r) = 12.
Proof.
  intros c v r. split; [reflexivity|].
  rewrite (proj2 (@vote_adds_credits c_locale c sample_db v sample_email eq_refl) r).
  reflexivity.
Defined.

(** * What the search returns *)

Lemma search_condition_sanitized `{Adapter} (r : Contestant) (query : string) :
  search_condition r ("%" +:+ sanitize_sql_like query +:+ "%") = true ↔
    contains_ci (organization_name (c_profile r)) query
    ∨ contains_ci (full_name (c_user r)) query
    ∨ contains_ci (zipcode (c_profile r)) query
    ∨ contains_ci (city (c_profile r)) query
    ∨ ∃ reg, c_region r = Some reg ∧ contains_ci (region_code reg) query.
Proof.
  unfold search_condition. rewrite !orb_true_iff, !ILIKE_sanitized_query.
  destruct (c_region r) as [reg|]; cbn.
  - rewrite ILIKE_sanitized_query. naive_solver.
  - naive_solver.
Qed.




Lemma filter_all {A : Type} (P : A → Prop) `{∀ x, Decision (P x)} (l : list A) :
  (∀ x, x ∈ l → P x) → filter P l = l.
Proof.
  induction l as [|x l IH]; [done|]. intros Hall.
  rewrite filter_cons_True by (apply Hall; by left).
  rewrite IH; [done|]. intros y Hy. apply Hall. by right.
Qed.

(** X12.  The empty query is found in every text: the search then returns
    the first 5 distinct profiles of the contestants, in their order. *)
Theorem participants_empty_query `{Adapter} (c : Contest) (db : Database) :
  participants c db "" = take 5 (remove_dups (c_profile <$> contestant_list c db)).
Proof.
  unfold participants, participant_search. do 3 f_equal.
  apply filter_all. intros r _. apply Is_true_true, search_condition_sanitized.
  left. by exists [], [], (list_ascii_of_string (organization_name (c_profile r))).
Qed.

(** * Ranks count the rows with more credits *)

Section competition_ranking.
Implicit Types (lb : list LeaderboardRow) (e : RankedEntry).

Lemma more_credits_cons n p lb :
  more_credits n (p :: lb)
  = if decide (n < credits p) then p :: more_credits n lb else more_credits n lb.
Proof. unfold more_credits. by rewrite filter_cons. Qed.

Lemma more_credits_none n lb :
  Forall (λ p, credits p ≤ n) lb → more_credits n lb = [].
Proof.
  induction 1 as [|p lb Hp _ IH]; [done|].
  rewrite more_credits_cons, decide_False by lia. done.
Qed.

Lemma more_credits_all n lb :
  Forall (λ p, n < credits p) lb → more_credits n lb = lb.
Proof.
  induction 1 as [|p lb Hp _ IH]; [done|].
  rewrite more_credits_cons, decide_True by lia. by rewrite IH.
Qed.

Lemma more_credits_mono n m lb :
  m ≤ n → (length (more_credits n lb) ≤ length (more_credits m lb))%nat.
Proof.
  intros Hmn. induction lb as [|p lb IH]; [done|].
  rewrite !more_credits_cons. repeat case_decide; cbn; lia.
Qed.

Lemma calculate_ranks_from_more_credits index cc cr lb i e :
  StronglySorted credits_desc lb →
  Forall (λ p, credits p ≤ cc) lb →
  calculate_ranks_from index cc cr lb !! i = Some e →
  rank e = if decide (credits (entry_row e) = cc) then cr
           else index + Z.of_nat (length (more_credits (credits (entry_row e)) lb)) + 1.
Proof.
  revert index cc cr i. induction lb as [|p lb IH]; intros index cc cr i; [done|].
  intros [Hs Hall]%StronglySorted_inv [Hp Hle]%Forall_cons.
  rewrite calculate_ranks_from_cons. cbn zeta. destruct i as [|i]; cbn [lookup list_lookup].
  - intros [= <-]. cbn [entry_row rank].
    rewrite more_credits_cons, (more_credits_none _ lb Hall).
    repeat case_decide; cbn; lia.
  - intros He.
    assert (credits (entry_row e) ≤ credits p) as Hep.
    { apply calculate_ranks_from_lookup_row, list_elem_of_lookup_2 in He.
      rewrite Forall_forall in Hall. by apply Hall in He. }
    rewrite (IH _ _ _ _ Hs Hall He). rewrite more_credits_cons.
    destruct (decide (credits (entry_row e) = credits p)) as [Heq|Hne].
    + rewrite Heq, (more_credits_none _ lb Hall).
      repeat case_decide; cbn; lia.
    + repeat case_decide; cbn [length]; lia.
Qed.

(** The rank is one more than the number of rows with more credits. *)
Lemma calculate_ranks_more_credits lb i e :
  StronglySorted credits_desc lb →
  Forall (λ p, 0 ≤ credits p) lb →
  calculate_ranks lb !! i = Some e →
  rank e = 1 + Z.of_nat (length (more_credits (credits (entry_row e)) lb)).
Proof.
  unfold calculate_ranks. destruct lb as [|p lb]; [done|].
  intros [Hs Hall]%StronglySorted_inv [Hp Hpos]%Forall_cons.
  rewrite calculate_ranks_from_cons. cbn zeta. rewrite decide_False by lia.
  destruct i as [|i]; cbn [lookup list_lookup].
  - intros [= <-]. cbn [entry_row rank].
    rewrite more_credits_cons, (more_credits_none _ lb Hall).
    repeat case_decide; cbn; lia.
  - intros He.
    assert (credits (entry_row e) ≤ credits p) as Hep.
    { apply calculate_ranks_from_lookup_row, list_elem_of_lookup_2 in He.
      rewrite Forall_forall in Hall. by apply Hall in He. }
    rewrite (calculate_ranks_from_more_credits _ _ _ _ _ _ Hs Hall He).
    rewrite more_credits_cons.
    destruct (decide (credits (entry_row e) = credits p)) as [Heq|Hne].
    + rewrite Heq, (more_credits_none _ lb Hall). repeat case_decide; cbn; lia.
    + repeat case_decide; cbn [length]; lia.
Qed.

(** In a sorted list the rows with more credits than the row at [i] are
    among the [i] rows before it. *)
Lemma more_credits_before lb i p :
  StronglySorted credits_desc lb →
  lb !! i = Some p →
  (length (more_credits (credits p) lb) ≤ i)%nat.
Proof.
  intros Hs Hp. rewrite <- (take_drop i lb) at 1.
  unfold more_credits. rewrite filter_app, length_app.
  fold (more_credits (credits p) (drop i lb)).
  rewrite (more_credits_none _ (drop i lb)).
  - pose proof (length_filter (λ q, credits p < credits q) (take i lb)).
    rewrite length_take in *. cbn. lia.
  - apply Forall_forall. intros q [k Hq]%list_elem_of_lookup_1.
    rewrite lookup_drop in Hq. destruct k as [|k].
    + rewrite Nat.add_0_r, Hp in Hq. injection Hq as <-. lia.
    + change (credits_desc p q).
      eapply (StronglySorted_lookup _ lb i (i + S k)); [done|lia|done..].
Qed.

(** The rows before one with fewer credits all have more credits. *)
Lemma more_credits_after lb i p n :
  StronglySorted credits_desc lb →
  lb !! i = Some p →
  n < credits p →
  (i < length (more_credits n lb))%nat.
Proof.
  intros Hs Hp Hn. rewrite <- (take_drop (S i) lb).
  unfold more_credits. rewrite filter_app, length_app.
  fold (more_credits n (take (S i) lb)). rewrite more_credits_all.
  - rewrite length_take. apply lookup_lt_Some in Hp. lia.
  - apply Forall_forall. intros q [k [Hq Hk]]%elem_of_take.
    destruct (decide (k = i)) as [->|Hne].
    + rewrite Hp in Hq. by injection Hq as <-.
    + assert (credits_desc q p) as Hqp.
      { eapply (StronglySorted_lookup _ lb k i); [done|lia|done..]. }
      unfold credits_desc in Hqp. lia.
Qed.
Lemma calculate_ranks_bounds lb i e :
  StronglySorted credits_desc lb →
  Forall (λ p, 0 ≤ credits p) lb →
  calculate_ranks lb !! i = Some e →
  1 ≤ rank e ≤ Z.of_nat i + 1.
Proof.
  intros Hs Hpos He.
  pose proof (calculate_ranks_more_credits lb i e Hs Hpos He) as Hrank.
  pose proof (calculate_ranks_from_lookup_row _ _ _ _ _ _ He) as Hrow.
  pose proof (more_credits_before lb i _ Hs Hrow) as Hbefore. lia.
Qed.

Lemma calculate_ranks_monotone lb i j e e' :
  StronglySorted credits_desc lb →
  Forall (λ p, 0 ≤ credits p) lb →
  calculate_ranks lb !! i = Some e →
  calculate_ranks lb !! j = Some e' →
  (i ≤ j)%nat →
  rank e ≤ rank e'.
Proof.
  intros Hs Hpos He He' Hij.
  rewrite (calculate_ranks_more_credits lb i e Hs Hpos He).
  rewrite (calculate_ranks_more_credits lb j e' Hs Hpos He').
  pose proof (calculate_ranks_from_lookup_row _ _ _ _ _ _ He) as Hrow.
  pose proof (calculate_ranks_from_lookup_row _ _ _ _ _ _ He') as Hrow'.
  assert (credits (entry_row e') ≤ credits (entry_row e)) as Hle.
  { destruct (decide (i = j)) as [->|Hne].
    - rewrite He in He'. by injection He' as <-.
    - change (credits_desc (entry_row e) (entry_row e')).
      eapply (StronglySorted_lookup _ lb i j); [done|lia|done..]. }
  pose proof (more_credits_mono _ _ lb Hle). lia.
Qed.
End competition_ranking.

(** X13.  On rows sorted by credits descending, with credits that are not
    negative, the rank of an entry is one more than the number of rows
    with strictly more credits.  Hence the first entry has rank 1, no
    entry has a rank beyond its position, ranks never decrease down the
    list, and an entry with fewer credits has a strictly greater rank. *)
Theorem calculate_ranks_competition (lb : list LeaderboardRow) :
  StronglySorted credits_desc lb →
  Forall (λ p, 0 ≤ credits p) lb →
  ∀ i e, calculate_ranks lb !! i = Some e →
    rank e = 1 + Z.of_nat (length (more_credits (credits (entry_row e)) lb))
    ∧ 1 ≤ rank e ≤ Z.of_nat i + 1
    ∧ ∀ j e', calculate_ranks lb !! j = Some e' →
        ((i ≤ j)%nat → rank e ≤ rank e')
        ∧ (credits (entry_row e') < credits (entry_row e) → rank e < rank e').
Proof.
  intros Hs Hpos i e He.
  pose proof (calculate_ranks_bounds lb i e Hs Hpos He) as Hbounds.
  split_and!; [by apply (calculate_ranks_more_credits lb i)|lia|lia|].
  intros j e' He'. split.
  - by apply (calculate_ranks_monotone lb i j).
  - intros Hlt.
    rewrite (calculate_ranks_more_credits lb j e' Hs Hpos He').
    pose proof (calculate_ranks_from_lookup_row _ _ _ _ _ _ He) as Hrow.
    pose proof (more_credits_after lb i _ _ Hs Hrow Hlt). lia.
Qed.

Lemma calculate_ranks_competition_witness :
  let lb := row_with_credits <$> [10; 10; 8; 8; 8; 5] in
  ∃ e, calculate_ranks lb !! 5%nat = Some e
       ∧ rank e = 1 + Z.of_nat (length (more_credits 5 lb)).
Proof.
  intros lb.
  destruct (calculate_ranks lb !! 5%nat) as [e|] eqn:He; [|by vm_compute in He].
  exists e. split; [done|].
  assert (credits (entry_row e) = 5) as <-.
  { vm_compute in He. by injection He as <-. }
  refine (proj1 (calculate_ranks_competition lb _ _ 5%nat e He)).
  - repeat (constructor; [|repeat constructor; unfold credits_desc; cbn; lia]).
    constructor.
  - repeat constructor; cbn; lia.
Defined.

(** X14.  For a contest whose three weights are not negative, over
    shipments whose units are not negative, the computed leaderboard has
    one entry for each row of [leaderboard_scope], in its order, and the
    rank of an entry is one more than the number of rows with strictly
    more credits. *)
Theorem leaderboard_calc_ranks `{Collation} (c : Contest) (db : Database) :
  0 ≤ credits_by_shipment c → 0 ≤ credits_by_vote c → 0 ≤ credits_by_unit c →
  Forall (λ s, 0 ≤ default 0 (units_collected s)) (shipments db) →
  entry_row <$> leaderboard_calc c db = leaderboard_scope c db
  ∧ ∀ i e, leaderboard_calc c db !! i = Some e →
      0 ≤ credits (entry_row e)
      ∧ rank e = 1 + Z.of_nat (length (more_credits (credits (entry_row e))
                                         (leaderboard_scope c db))).
Proof.
  intros Hs Hv Hu Hunits.
  pose proof (leaderboard_scope_credits_nonneg c db Hs Hv Hu Hunits) as Hpos.
  split; [apply calculate_ranks_from_rows|]. intros i e He. split.
  - apply calculate_ranks_from_lookup_row, list_elem_of_lookup_2 in He.
    rewrite Forall_forall in Hpos. by apply Hpos.
  - eapply calculate_ranks_more_credits; [|done..].
    apply leaderboard_scope_credits_desc.
Qed.

Lemma leaderboard_calc_ranks_witness :
  let c := sample_contest "" false [] false in
  entry_row <$> @leaderboard_calc c_locale c sample_db
  = @leaderboard_scope c_locale c sample_db.
Proof.
  intros c.
  refine (proj1 (@leaderboard_calc_ranks c_locale _ c sample_db _ _ _ _));
    [vm_compute; discriminate..|].
  repeat constructor. vm_compute. discriminate.
Defined.

(** * One entry for a profile *)

Lemma NoDup_fmap_eq {A B : Type} (f : A → B) (l : list A) (x y : A) :
  NoDup (f <$> l) → x ∈ l → y ∈ l → f x = f y → x = y.
Proof.
  induction l as [|a l IH]; [by intros _ ?%not_elem_of_nil|].
  rewrite fmap_cons, NoDup_cons.
  intros [Ha Hl] [->|Hx]%elem_of_cons [->|Hy]%elem_of_cons Hf; try done.
  - destruct Ha. rewrite Hf. by apply list_elem_of_fmap_2.
  - destruct Ha. rewrite <- Hf. by apply list_elem_of_fmap_2.
  - by apply IH.
Qed.

Lemma left_join_regions_unique (db : Database) (p : Profile) (r1 r2 : option Region) :
  NoDup (region_pk <$> region_table db) →
  r1 ∈ left_join_regions db p → r2 ∈ left_join_regions db p → r1 = r2.
Proof.
  intros Hpk. unfold left_join_regions.
  destruct (filter _ (region_table db)) as [|r0 rs] eqn:Hf.
  - by intros ->%list_elem_of_singleton ->%list_elem_of_singleton.
  - rewrite <- Hf.
    intros (x1 & -> & [Hx1 Hin1]%list_elem_of_filter)%list_elem_of_fmap.
    intros (x2 & -> & [Hx2 Hin2]%list_elem_of_filter)%list_elem_of_fmap.
    f_equal. apply (NoDup_fmap_eq region_pk (region_table db)); [done..|congruence].
Qed.

(** X15.  Where profile ids, user ids and region ids are each unique, no
    profile has two entries in the computed leaderboard, however many
    collections it has. *)
Theorem leaderboard_calc_one_entry_per_profile `{Adapter} (c : Contest)
    (db : Database) :
  NoDup (profile_id <$> profiles db) →
  NoDup (user_id <$> users db) →
  NoDup (region_pk <$> region_table db) →
  NoDup ((λ e, row_id (numbers (entry_row e))) <$> leaderboard_calc c db).
Proof.
  intros Hprofiles Husers Hregions.
  assert ((λ e, row_id (numbers (entry_row e))) <$> leaderboard_calc c db
          ≡ₚ row_id <$> raw_numbers c db) as ->.
  { rewrite (list_fmap_compose entry_row (λ r, row_id (numbers r))).
    unfold leaderboard_calc, calculate_ranks. rewrite calculate_ranks_from_rows.
    unfold leaderboard_scope. rewrite order_by_perm by apply _.
    by rewrite <- list_fmap_compose. }
  apply NoDup_fmap_2_strong; [|apply NoDup_remove_dups].
  intros n1 n2 (r1 & Hr1 & ->)%elem_of_raw_numbers (r2 & Hr2 & ->)%elem_of_raw_numbers.
  cbn. intros Hid.
  apply elem_of_contestant_list in Hr1 as (Hp1 & Hreg1 & Hu1 & Hup1 & _).
  apply elem_of_contestant_list in Hr2 as (Hp2 & Hreg2 & Hu2 & Hup2 & _).
  apply elem_of_allowed_profiles in Hp1 as [Hp1 _].
  apply elem_of_allowed_profiles in Hp2 as [Hp2 _].
  assert (c_profile r1 = c_profile r2) as Hp
    by by apply (NoDup_fmap_eq profile_id (profiles db)).
  assert (c_user r1 = c_user r2) as Hu.
  { apply (NoDup_fmap_eq user_id (users db)); [done..|]. by rewrite Hup1, Hup2, Hp. }
  assert (c_region r1 = c_region r2) as Hreg.
  { rewrite Hp in Hreg1. by eapply left_join_regions_unique. }
  unfold raw_numbers_row. by rewrite Hp, Hu, Hreg.
Qed.

Lemma leaderboard_calc_one_entry_per_profile_witness :
  NoDup ((λ e, row_id (numbers (entry_row e)))
           <$> @leaderboard_calc c_locale (sample_contest "" false [] false) sample_db).
Proof.
  apply (@leaderboard_calc_one_entry_per_profile c_locale); by_running.
Defined.

(** * The cache key of a contest *)

Lemma list_ascii_of_string_inj (s t : string) :
  list_ascii_of_string s = list_ascii_of_string t → s = t.
Proof.
  intros Hst. by rewrite <- (string_of_list_ascii_of_string s), Hst,
    string_of_list_ascii_of_string.
Qed.

Lemma leaderboard_cache_key_inj (w : World) (c1 c2 : Contest) :
  leaderboard_cache_key w c1 = leaderboard_cache_key w c2 ↔ id c1 = id c2.
Proof.
  unfold leaderboard_cache_key. split; [|by intros ->].
  intros Hkey%(f_equal list_ascii_of_string).
  rewrite !list_ascii_of_string_app in Hkey.
  do 2 apply app_inv_head in Hkey. apply app_inv_tail in Hkey.
  by apply list_ascii_of_string_inj, (inj pretty) in Hkey.
Qed.

Lemma leaderboard_cache_key_with_cached (key : string)
    (entries : list RankedEntry) (w : World) (c : Contest) :
  leaderboard_cache_key (with_cached key entries w) c = leaderboard_cache_key w c.
Proof. done. Qed.

(** X16.  In one country two contests have the same leaderboard cache key
    only if they have the same id.  So a leaderboard stored under a
    contest's key is what the next read of that contest returns, and it
    changes the read of no other contest. *)
Theorem leaderboard_cache_key_separates (w : World) (c1 c2 : Contest)
    (entries : list RankedEntry) :
  (leaderboard_cache_key w c1 = leaderboard_cache_key w c2 ↔ id c1 = id c2)
  ∧ leaderboard c2 (with_cached (leaderboard_cache_key w c2) entries w)
    = (entries, with_cached (leaderboard_cache_key w c2) entries w)
  ∧ (id c1 ≠ id c2 →
     (leaderboard c1 (with_cached (leaderboard_cache_key w c2) entries w)).1
     = (leaderboard c1 w).1).
Proof.
  split_and!.
  - apply leaderboard_cache_key_inj.
  - unfold leaderboard. rewrite leaderboard_cache_key_with_cached.
    cbn [rails_cache with_cached]. by rewrite lookup_insert_eq.
  - intros Hne. unfold leaderboard. rewrite leaderboard_cache_key_with_cached.
    cbn [rails_cache with_cached].
    rewrite lookup_insert_ne by (by intros ?%leaderboard_cache_key_inj).
    by destruct (rails_cache w !! leaderboard_cache_key w c1).
Qed.

Lemma leaderboard_cache_key_separates_witness :
  let c1 := sample_contest "" false [] true in
  let c2 := {| id := 8; first_day := 0; last_day := 1;
               credits_by_shipment := 0; credits_by_vote := 0;
               credits_by_unit := 0; users_list_ids := "";
               users_list_white := false; select_options := [];
               regions := []; brigade_ids := []; leaderboard_enabled := true;
               leaderboard_display_address := true |} in
  let w := sample_world ∅ in
  (leaderboard c1 (with_cached (leaderboard_cache_key w c2) [] w)).1
  = (leaderboard c1 w).1.
Proof.
  intros c1 c2 w.
  exact (proj2 (proj2 (leaderboard_cache_key_separates w c1 c2 []))
           ltac:(vm_compute; discriminate)).
Defined.

(** * The top of the leaderboard *)

(** X17.  When the leaderboard is enabled and the cache holds the computed
    leaderboard of a contest with weights that are not negative, the
    controller reads it without changing anything and its top holds the
    first 15 entries: every entry of the top has a rank from 1 to 15, and
    an entry ranked strictly better than an entry of the top is in the
    top, at its own position. *)
Theorem fill_leaderboard_top `{Collation} (c : Contest) (db : Database) (w : World) :
  leaderboard_enabled c = true →
  rails_cache w !! leaderboard_cache_key w c = Some (leaderboard_calc c db) →
  0 ≤ credits_by_shipment c → 0 ≤ credits_by_vote c → 0 ≤ credits_by_unit c →
  Forall (λ s, 0 ≤ default 0 (units_collected s)) (shipments db) →
  ∃ view,
    fill_leaderboard c w = (Some view, w)
    ∧ view_leaderboard view = leaderboard_calc c db
    ∧ view_leaderboard_top view = take 15 (leaderboard_calc c db)
    ∧ (∀ e, e ∈ view_leaderboard_top view → 1 ≤ rank e ≤ 15)
    ∧ (∀ i j e e',
         leaderboard_calc c db !! i = Some e →
         view_leaderboard_top view !! j = Some e' →
         rank e < rank e' →
         view_leaderboard_top view !! i = Some e).
Proof.
  intros Hen Hcache Hs Hv Hu Hunits.
  pose proof (leaderboard_scope_credits_desc c db) as Hsorted.
  pose proof (leaderboard_scope_credits_nonneg c db Hs Hv Hu Hunits) as Hpos.
  unfold fill_leaderboard, leaderboard. rewrite Hen, Hcache.
  eexists. split; [reflexivity|]. cbn. split_and!; [done..| |].
  - intros e (i & He & Hi)%elem_of_take.
    pose proof (calculate_ranks_bounds _ i e Hsorted Hpos He). lia.
  - intros i j e e' He [He' Hj]%lookup_take_Some Hlt.
    apply lookup_take_Some. split; [done|].
    destruct (decide (i < j)%nat) as [|Hge]; [lia|].
    pose proof (calculate_ranks_monotone _ j i e' e Hsorted Hpos He' He). lia.
Qed.

Lemma fill_leaderboard_top_witness :
  let c := sample_contest "" false [] true in
  let w := with_cached "us_contest/7/leaderboard"
             (@leaderboard_calc c_locale c sample_db) (sample_world ∅) in
  ∃ view, fill_leaderboard c w = (Some view, w)
          ∧ view_leaderboard view = @leaderboard_calc c_locale c sample_db.
Proof.
  intros c w.
  destruct (@fill_leaderboard_top c_locale _ c sample_db w eq_refl
              (lookup_insert_eq _ _ _)
              ltac:(vm_compute; discriminate) ltac:(vm_compute; discriminate)
              ltac:(vm_compute; discriminate)
              ltac:(repeat constructor; vm_compute; discriminate))
    as (view & Hfill & Hview & _).
  by exists view.
Defined.

(** * Redux: the user reducer *)

Section user_reducer.
Context `{ActionTypes}.
Implicit Types (state : gmap string value) (action : gmap string value).

Lemma type_is_spec action t :
  type_is action t = true ↔ action !! "type" = Some (str t).
Proof.
  unfold type_is, get. destruct (action !! "type") as [[]|]; cbn;
    rewrite ?bool_decide_eq_true; naive_solver.
Qed.

Lemma type_is_userLogout t : type_is userLogout t = bool_decide (USER_LOGOUT = t).
Proof. done. Qed.

Lemma user_reducer_dom state action state' :
  user_reducer (Some state) action = Some state' →
  (dom initState ⊆ dom state → dom initState ⊆ dom state')
  ∧ (type_is action USER_LOGOUT = false → dom state ⊆ dom state').
Proof.
  unfold user_reducer. cbn [default].
  destruct (type_is action SET_USER_TOKENS).
  { intros [= <-]. rewrite dom_union. set_solver. }
  destruct (type_is action USER_DATA_SUCCESS).
  { destruct (member _ _); cbn; [|done]. intros [= <-]. rewrite dom_insert. set_solver. }
  destruct (type_is action USER_LOGOUT).
  { intros [= <-]. split; [done|]. done. }
  destruct (type_is action USER_LOGIN).
  { intros [= <-]. rewrite dom_insert. set_solver. }
  destruct (type_is action SET_PUBLIC_KEYS).
  { intros [= <-]. rewrite dom_insert. set_solver. }
  by intros [= <-].
Qed.
End user_reducer.

(** X18.  Whatever the state, also before there is any, the logout action
    puts the store back to its initial state, so that the credentials
    read from it are null, provided the two imported action types are
    not the logout type. *)
Theorem logout_resets `{ActionTypes} (state : option (gmap string value)) :
  SET_USER_TOKENS ≠ USER_LOGOUT →
  USER_DATA_SUCCESS ≠ USER_LOGOUT →
  user_reducer state userLogout = Some initState
  ∧ ∀ state', user_reducer state userLogout = Some state' →
      getCredentials {[ "user" := object state' ]}
      = Some {[ "token" := null; "refreshToken" := null ]}.
Proof.
  intros Htokens Hdata.
  assert (user_reducer state userLogout = Some initState) as Hreset.
  { unfold user_reducer. rewrite !type_is_userLogout.
    rewrite (bool_decide_false (USER_LOGOUT = SET_USER_TOKENS)) by done.
    rewrite (bool_decide_false (USER_LOGOUT = USER_DATA_SUCCESS)) by done.
    by rewrite bool_decide_true. }
  split; [done|]. intros state'. rewrite Hreset. by intros [= <-].
Qed.

Lemma logout_resets_witness :
  let types := {| SET_USER_TOKENS := "SET_USER_TOKENS";
                  USER_DATA_SUCCESS := "USER_DATA_SUCCESS" |} in
  @user_reducer types (Some {[ "logged" := boolean true; "token" := str "t" ]})
    userLogout
  = Some initState.
Proof.
  intros types.
  exact (proj1 (@logout_resets types _ ltac:(discriminate) ltac:(discriminate))).
Defined.

(** X19.  However many actions are dispatched, if none throws the state
    still has the five fields of the initial state: the reducer removes
    no field, except that logout puts the initial state back. *)
Theorem dispatch_all_keeps_fields `{ActionTypes}
    (actions : list (gmap string value)) (state : gmap string value) :
  dispatch_all actions = Some state →
  dom initState ⊆ dom state.
Proof.
  unfold dispatch_all.
  assert (∀ start, (∀ s, start = Some s → dom initState ⊆ dom s) →
            foldl (λ state action, state ≫= λ s, user_reducer (Some s) action)
              start actions = Some state →
            dom initState ⊆ dom state) as Hrun.
  { induction actions as [|action actions IH]; intros start Hstart; cbn.
    - apply Hstart.
    - apply IH. intros s' Hs'. destruct start as [s|]; [|done]. cbn in Hs'.
      apply user_reducer_dom in Hs' as [Hkeep _]. by apply Hkeep, Hstart. }
  apply Hrun. by intros s [= <-].
Qed.

Lemma dispatch_all_keeps_fields_witness :
  let types := {| SET_USER_TOKENS := "SET_USER_TOKENS";
                  USER_DATA_SUCCESS := "USER_DATA_SUCCESS" |} in
  dom initState
  ⊆ dom (<["public_keys" := null]> (<["logged" := boolean true]> initState)).
Proof.
  intros types.
  apply (@dispatch_all_keeps_fields types [userLogin; setPublicKeys null]).
  reflexivity.
Defined.

(** X20.  After the tokens action, with tokens that are an object holding
    a token and a refresh token, the credentials read from the store are
    that token and that refresh token, and every field of the state that
    the tokens do not name is as it was. *)
Theorem set_user_tokens_reads_back `{ActionTypes}
    (state : option (gmap string value)) (action tokens : gmap string value)
    (token refreshToken : value) :
  action !! "type" = Some (str SET_USER_TOKENS) →
  action !! "tokens" = Some (object tokens) →
  tokens !! "token" = Some token →
  tokens !! "refreshToken" = Some refreshToken →
  ∃ state',
    user_reducer state action = Some state'
    ∧ getCredentials {[ "user" := object state' ]}
      = Some {[ "token" := token; "refreshToken" := refreshToken ]}
    ∧ ∀ k, tokens !! k = None → state' !! k = default initState state !! k.
Proof.
  intros Htype Htokens Htoken Hrefresh.
  exists (tokens ∪ default initState state). split_and!.
  - unfold user_reducer. rewrite (proj2 (type_is_spec action _) Htype).
    unfold get. by rewrite Htokens.
  - unfold getCredentials, get. rewrite lookup_singleton_eq. cbn.
    unfold get. rewrite !(lookup_union_Some_l _ _ _ _ Htoken).
    by rewrite !(lookup_union_Some_l _ _ _ _ Hrefresh).
  - intros k Hk. by rewrite lookup_union_r.
Qed.

Lemma set_user_tokens_reads_back_witness :
  let types := {| SET_USER_TOKENS := "SET_USER_TOKENS";
                  USER_DATA_SUCCESS := "USER_DATA_SUCCESS" |} in
  let tokens : gmap string value :=
    {[ "token" := str "a"; "refreshToken" := str "b" ]} in
  let action : gmap string value :=
    {[ "type" := str "SET_USER_TOKENS"; "tokens" := object tokens ]} in
  ∃ state',
    @user_reducer types None action = Some state'
    ∧ getCredentials {[ "user" := object state' ]}
      = Some {[ "token" := str "a"; "refreshToken" := str "b" ]}.
Proof.
  intros types tokens action.
  assert (action !! "type" = Some (str (@SET_USER_TOKENS types))) as Htype
    by (vm_compute; reflexivity).
  assert (action !! "tokens" = Some (object tokens)) as Htokens
    by (vm_compute; reflexivity).
  assert (tokens !! "token" = Some (str "a")) as Htoken
    by (vm_compute; reflexivity).
  assert (tokens !! "refreshToken" = Some (str "b")) as Hrefresh
    by (vm_compute; reflexivity).
  destruct (@set_user_tokens_reads_back types None action tokens
              (str "a") (str "b") Htype Htokens Htoken Hrefresh)
    as (state' & Hred & Hcred & _).
  by exists state'.
Defined.

(** * Node: the access handler *)

Lemma app_separator_inj {A : Type} (sep : A) (e e' o o' : list A) :
  sep ∉ o → sep ∉ o' →
  (e ++ sep :: o = e' ++ sep :: o')%list → e = e' ∧ o = o'.
Proof.
  intros Ho Ho'. revert e'. induction e as [|c e IH]; intros [|c' e']; cbn.
  - by intros [= ->].
  - intros [= <- ->]. destruct Ho. set_solver.
  - intros [= -> <-]. destruct Ho'. set_solver.
  - intros [= -> Heq]. by destruct (IH e' Heq) as [-> ->].
Qed.

Lemma logins_key_inj (email email' organisationId organisationId' : string) :
  free_of "_" organisationId → free_of "_" organisationId' →
  logins_key email organisationId = logins_key email' organisationId' →
  email = email' ∧ organisationId = organisationId'.
Proof.
  unfold logins_key, free_of. intros Ho Ho' Hkey%(f_equal list_ascii_of_string).
  rewrite !list_ascii_of_string_app in Hkey.
  change (list_ascii_of_string "_") with ["_"%char] in Hkey. cbn [app] in Hkey.
  apply app_separator_inj in Hkey as [He Horg]; [|done..].
  split; by apply list_ascii_of_string_inj.
Qed.

(** X21.  [isUserBlocked] answers true exactly when the cache holds, under
    the key of the e-mail and the organisation, a counter that has
    reached [maximumGuesses].  It then renews the lifetime of that entry
    to [timePeriod]; otherwise it leaves the cache as it is.  It never
    creates or removes an entry and never changes a counter or an entry
    under another key. *)
Theorem isUserBlocked_blocks (config : AccessParams) (email organisationId : string)
    (memcache : gmap string Logins) :
  ((isUserBlocked config email organisationId memcache).1 = true ↔
     ∃ userLogins,
       memcache !! logins_key email organisationId = Some userLogins
       ∧ maximumGuesses config ≤ logins_value userLogins)
  ∧ (∀ k, logins_value <$> (isUserBlocked config email organisationId memcache).2 !! k
          = logins_value <$> memcache !! k)
  ∧ (∀ k, k ≠ logins_key email organisationId →
          (isUserBlocked config email organisationId memcache).2 !! k = memcache !! k)
  ∧ ((isUserBlocked config email organisationId memcache).1 = false →
     (isUserBlocked config email organisationId memcache).2 = memcache)
  ∧ ((isUserBlocked config email organisationId memcache).1 = true →
     logins_lifetime
       <$> (isUserBlocked config email organisationId memcache).2
           !! logins_key email organisationId
     = Some (timePeriod config)).
Proof.
  unfold isUserBlocked.
  destruct (memcache !! logins_key email organisationId) as [userLogins|] eqn:Hget.
  - case_decide as Hmax; cbn.
    + split_and!; try done.
      * split; [|done]. intros _. exists userLogins. split; [done|lia].
      * intros k. destruct (decide (k = logins_key email organisationId)) as [->|Hk].
        -- by rewrite lookup_insert_eq, Hget.
        -- by rewrite lookup_insert_ne.
      * intros k Hk. by rewrite lookup_insert_ne.
      * intros _. by rewrite lookup_insert_eq.
    + split_and!; try done.
      split; [done|]. intros (l & [= <-] & Hl). lia.
  - cbn. split_and!; try done. split; [done|]. by intros (l & [=] & _).
Qed.

Lemma isUserBlocked_blocks_witness :
  let config := {| maximumGuesses := 5; timePeriod := 600 |} in
  let memcache : gmap string Logins :=
    {[ logins_key "ann@mail.com" "59196f8ac6e3d6243048b5f1"
         := {| logins_value := 5; logins_lifetime := 60 |} ]} in
  logins_lifetime
    <$> (isUserBlocked config "ann@mail.com" "59196f8ac6e3d6243048b5f1" memcache).2
        !! logins_key "ann@mail.com" "59196f8ac6e3d6243048b5f1"
  = Some 600.
Proof.
  intros config memcache.
  apply (isUserBlocked_blocks config "ann@mail.com" "59196f8ac6e3d6243048b5f1"
           memcache).
  unfold isUserBlocked, memcache. rewrite lookup_singleton_eq. reflexivity.
Defined.

(** X22.  When the ids of the organisations hold no underscore, two
    different pairs of an e-mail and an organisation have different keys,
    and checking one pair leaves the entry of the other as it is. *)
Theorem logins_key_separates (config : AccessParams)
    (email email' organisationId organisationId' : string)
    (memcache : gmap string Logins) :
  free_of "_" organisationId → free_of "_" organisationId' →
  (logins_key email organisationId = logins_key email' organisationId' ↔
     email = email' ∧ organisationId = organisationId')
  ∧ (¬ (email = email' ∧ organisationId = organisationId') →
     (isUserBlocked config email organisationId memcache).2
       !! logins_key email' organisationId'
     = memcache !! logins_key email' organisationId').
Proof.
  intros Ho Ho'. split.
  - split; [by apply logins_key_inj|by intros [-> ->]].
  - intros Hne. unfold isUserBlocked.
    destruct (memcache !! logins_key email organisationId); [|done].
    case_decide; [|done]. cbn. apply lookup_insert_ne.
    intros Hkey. by apply Hne, logins_key_inj.
Qed.

Lemma logins_key_separates_witness :
  logins_key "a_b@mail.com" "591e" = logins_key "a@mail.com" "591f" ↔
    "a_b@mail.com" = "a@mail.com" ∧ "591e" = "591f".
Proof.
  apply (logins_key_separates {| maximumGuesses := 5; timePeriod := 600 |}
           "a_b@mail.com" "a@mail.com" "591e" "591f" ∅);
    unfold free_of; by_running.
Defined.

(** With an underscore in the id of an organisation two pairs can share a
    key. *)
Example logins_key_collision : logins_key "a_b" "c" = logins_key "a" "b_c".
Proof. reflexivity. Qed.

(** * Node: the workflow controller *)

(** X23.  [createWorkflow] creates for the organisation of the user: what
    the body says of the organisation does not reach the service, and the
    answer depends on the service only through what it does with the body
    whose organisation is the user's. *)
Theorem createWorkflow_organisation (env env' : WorkflowEnv)
    (body : gmap string value) (organisation other : value) :
  (validation_error env (<["organisation" := other]> body)
   = validation_error env body →
   createWorkflow env (<["organisation" := other]> body) organisation
   = createWorkflow env body organisation)
  ∧ (validation_error env' body = validation_error env body →
     (∀ arg, arg !! "organisation" = Some organisation →
             (∀ k, k ≠ "organisation" → arg !! k = body !! k) →
             service_create env' arg = service_create env arg) →
     createWorkflow env' body organisation = createWorkflow env body organisation).
Proof.
  unfold createWorkflow. split.
  - intros ->. by rewrite insert_insert_eq.
  - intros -> Hcreate. destruct (validation_error env body); [done|].
    rewrite Hcreate; [done|apply lookup_insert_eq|].
    intros k Hk. by apply lookup_insert_ne.
Qed.

Lemma createWorkflow_organisation_witness :
  let env := {| validation_error := λ _, None;
                isValid := λ _, true;
                service_create := λ body, Resolved (object body);
                service_findById := λ _, Rejected null;
                service_findByIdWithActions := λ _, Rejected null;
                NOT_VALID_ID := "Not valid id";
                NOT_FOUND := "Not found";
                ERROR_PER_DENIED := "Permission denied" |} in
  let body : gmap string value := {[ "name" := str "testWorklow2" ]} in
  createWorkflow env (<["organisation" := str "59196f8ac6e3d6243048b5f1"]> body)
    (str "591ea63a94743d2e6c334304")
  = createWorkflow env body (str "591ea63a94743d2e6c334304").
Proof.
  intros env body.
  exact (proj1 (createWorkflow_organisation env env body _ _) eq_refl).
Defined.

(** X24.  [getWorkflowById] answers 400 to an id that is not valid and 403
    to the workflow of another organisation, whatever the service would
    say next; it answers 200 only with the actions, not empty, of a
    workflow that exists and belongs to the organisation of the user; and
    it sends no other status than 200, 400, 403 and 404. *)
Theorem getWorkflowById_guards (env : WorkflowEnv) (id organisation : string) :
  (isValid env id = false →
   getWorkflowById env id organisation = Send 400 (message (NOT_VALID_ID env)))
  ∧ (∀ checkWorkflow,
       isValid env id = true →
       service_findById env id = Resolved (Some checkWorkflow) →
       workflow_organisation checkWorkflow ≠ organisation →
       getWorkflowById env id organisation
       = Send 403 (message (ERROR_PER_DENIED env)))
  ∧ (∀ body,
       getWorkflowById env id organisation = Send 200 body →
       isValid env id = true
       ∧ ∃ checkWorkflow workflow,
           service_findById env id = Resolved (Some checkWorkflow)
           ∧ workflow_organisation checkWorkflow = organisation
           ∧ service_findByIdWithActions env id = Resolved (Some workflow)
           ∧ workflow ≠ [] ∧ body = array workflow)
  ∧ (∀ status body,
       getWorkflowById env id organisation = Send status body →
       status ∈ [200; 400; 403; 404]).
Proof.
  unfold getWorkflowById. split_and!.
  - by intros ->.
  - intros wf -> -> Hne. cbn. by rewrite bool_decide_false.
  - intros body. destruct (isValid env id); cbn; [|done].
    destruct (service_findById env id) as [[wf|]|]; try done.
    case_bool_decide as Horg; cbn; [|done].
    destruct (service_findByIdWithActions env id) as [[[|a l]|]|]; try done.
    intros [= <-]. split; [done|]. by exists wf, (a :: l).
  - intros status body. destruct (isValid env id); cbn; [|intros [= <- _]; set_solver].
    destruct (service_findById env id) as [[wf|]|]; [| |done].
    + case_bool_decide; cbn; [|intros [= <- _]; set_solver].
      destruct (service_findByIdWithActions env id) as [[[|a l]|]|];
        try done; intros [= <- _]; set_solver.
    + intros [= <- _]. set_solver.
Qed.

Lemma getWorkflowById_guards_witness :
  let env := {| validation_error := λ _, None;
                isValid := λ id, bool_decide (String.length id = 24%nat);
                service_create := λ body, Resolved (object body);
                service_findById := λ _, Rejected null;
                service_findByIdWithActions := λ _, Rejected null;
                NOT_VALID_ID := "Not valid id";
                NOT_FOUND := "Not found";
                ERROR_PER_DENIED := "Permission denied" |} in
  getWorkflowById env "42" "59196f8ac6e3d6243048b5f1"
  = Send 400 (message "Not valid id").
Proof.
  intros env.
  exact (proj1 (getWorkflowById_guards env "42" "59196f8ac6e3d6243048b5f1") eq_refl).
Defined.

Lemma project_data_filtered (items : list value) :
  Forall2 (λ a k, ∃ fields,
             a = object fields
             ∧ k = object match fields !! "data" with
                          | Some d => {[ "data" := d ]}
                          | None => ∅
                          end)
          (filter (λ a, form_with_data a) items)
          (omap project_data (filter (λ a, form_with_data a) items)).
Proof.
  induction items as [|a items IH]; [constructor|].
  rewrite filter_cons. case_decide as Ha; [|done].
  destruct a as [| | | | | | |fields]; try done.
  cbn. constructor; [by exists fields|done].
Qed.

Lemma form_with_data_spec (action : value) :
  form_with_data action
  ↔ ∃ fields, action = object fields
              ∧ fields !! "actionType" = Some (str "Form")
              ∧ fields !! "data" ≠ Some null.
Proof.
  unfold form_with_data, field. split.
  - destruct action as [| | | | | | |fields]; try done.
    intros [Ht Hd]%andb_prop_elim. exists fields. split; [done|].
    destruct (fields !! "actionType") as [[| | | |t| | |]|]; try done.
    apply bool_decide_unpack in Ht as ->. split; [done|].
    by destruct (fields !! "data") as [[]|].
  - intros (fields & -> & -> & Hd). apply andb_prop_intro. split.
    + by apply bool_decide_pack.
    + by destruct (fields !! "data") as [[]|].
Qed.

Lemma project_actions_data_array (doc : gmap string value) (items : list value) :
  doc !! "actions" = Some (array items) →
  dom (project_actions_data doc) ⊆ ({[ "_id"; "actions" ]} : gset string)
  ∧ project_actions_data doc !! "_id" = doc !! "_id"
  ∧ project_actions_data doc !! "actions" = Some (array (omap project_data items)).
Proof.
  intros Hitems. unfold project_actions_data. rewrite Hitems.
  split; [|split].
  - rewrite dom_insert. destruct (doc !! "_id").
    + rewrite dom_singleton. set_solver.
    + rewrite dom_empty. set_solver.
  - rewrite lookup_insert_ne by done. destruct (doc !! "_id").
    + by rewrite lookup_singleton_eq.
    + done.
  - by rewrite lookup_insert_eq.
Qed.


Lemma add_filtered_actions_first (s a : gmap string value) :
  add_filtered_actions s = Some a →
  has_first_action (project_actions_data a) →
  ∃ items,
    s !! "actions" = Some (array items)
    ∧ filter (λ a, form_with_data a) items ≠ []
    ∧ a = <["actions" := array (filter (λ a, form_with_data a) items)]> s.
Proof.
  unfold add_filtered_actions. intros Hadd Hfirst.
  assert (∀ doc : gmap string value,
            ¬ has_first_action
                (project_actions_data (<["actions" := null]> doc))) as Hnull.
  { intros doc. unfold has_first_action, project_actions_data.
    rewrite lookup_insert_eq, lookup_insert_ne by done. cbv zeta iota beta.
    destruct (doc !! "_id");
      [rewrite lookup_singleton_ne by done|rewrite lookup_empty]; intros []. }
  destruct (s !! "actions") as [[| | | | | |items|]|] eqn:Hitems;
    simplify_eq; try by (exfalso; eapply Hnull).
  exists items. split; [done|]. split; [|done].
  intros Hnil. revert Hfirst. unfold has_first_action, project_actions_data.
  rewrite lookup_insert_eq, lookup_insert_eq, Hnil. done.
Qed.

Lemma aggregate_form_data_sound (workflowId : string)
    (sessions results : list (gmap string value)) (r : gmap string value) :
  aggregate_form_data workflowId sessions = Some results →
  r ∈ results →
    ∃ s items,
      s ∈ sessions
      ∧ field_matches (is_oid workflowId) (s !! "workflowId")
      ∧ field_matches is_false (s !! "deleted")
      ∧ s !! "actions" = Some (array items)
      ∧ filter (λ a, form_with_data a) items ≠ []
      ∧ dom r ⊆ ({[ "_id"; "actions" ]} : gset string)
      ∧ r !! "_id" = s !! "_id"
      ∧ r !! "actions"
        = Some (array (omap project_data (filter (λ a, form_with_data a) items))).
Proof.
  unfold aggregate_form_data. intros Hrun.
  destruct (mapM _ _) as [added|] eqn:Hadded; simplify_eq/=.
  apply mapM_Some in Hadded.
  rewrite list_elem_of_filter, list_elem_of_fmap.
  intros (Hfirst & a & -> & Ha).
  apply list_elem_of_lookup in Ha as [i Ha].
  destruct (Forall2_lookup_r _ _ _ _ _ Hadded Ha) as (s & Hs & Hsa).
  apply list_elem_of_lookup_2, list_elem_of_filter in Hs as [Hmatch Hs].
  apply andb_prop_elim in Hmatch as [Hwid Hdel].
  destruct (add_filtered_actions_first _ _ Hsa Hfirst)
    as (items & Hitems & Hne & ->).
  exists s, items. do 5 (split; [done|]).
  destruct (project_actions_data_array
              (<["actions" := array (filter (λ a, form_with_data a) items)]> s)
              (filter (λ a, form_with_data a) items)) as (Hdom & Hid & Hact).
  { by rewrite lookup_insert_eq. }
  rewrite lookup_insert_ne in Hid by done. done.
Qed.



(** X26. In a document returned by the aggregation the array of actions
    is not empty, and each of its items is a document with no field but
    data, whose data, when present, is not null. *)
Theorem aggregate_form_data_items (workflowId : string)
    (sessions results : list (gmap string value)) (r : gmap string value)
    (kept : list value) :
  aggregate_form_data workflowId sessions = Some results →
  r ∈ results →
  r !! "actions" = Some (array kept) →
  kept ≠ []
  ∧ ∀ k, k ∈ kept →
      k = object ∅ ∨ ∃ d, k = object {[ "data" := d ]} ∧ d ≠ null.
Proof.
  intros Hrun Hr Hkept.
  apply (aggregate_form_data_sound _ _ _ _ Hrun) in Hr
    as (s & items & _ & _ & _ & _ & Hne & _ & _ & Hact).
  rewrite Hkept in Hact. injection Hact as ->.
  pose proof (project_data_filtered items) as Hall. split.
  - intros Hnil. rewrite Hnil in Hall. by apply Forall2_nil_inv_r in Hall.
  - intros k Hk. apply list_elem_of_lookup in Hk as [i Hk].
    destruct (Forall2_lookup_r _ _ _ _ _ Hall Hk) as (a & Ha & fields & -> & ->).
    apply list_elem_of_lookup_2, list_elem_of_filter in Ha as [Ha _].
    apply form_with_data_spec in Ha as (fields' & [= <-] & _ & Hd).
    destruct (fields !! "data") as [d|]; [right|by left].
    exists d. split; [done|]. by intros ->.
Qed.

Lemma aggregate_form_data_items_witness :
  [object {[ "data" := object {[ "answer" := str "yes" ]} ]}] ≠ []
  ∧ ∀ k, k ∈ [object {[ "data" := object {[ "answer" := str "yes" ]} ]}] →
      k = object ∅ ∨ ∃ d, k = object {[ "data" := d ]} ∧ d ≠ null.
Proof.
  assert (aggregate_form_data "w1" sample_sessions = Some [sample_form_data])
    as Hrun by (vm_compute; reflexivity).
  assert (sample_form_data !! "actions"
          = Some (array [object {[ "data" := object {[ "answer" := str "yes" ]} ]}]))
    as Hkept by (vm_compute; reflexivity).
  exact (aggregate_form_data_items "w1" sample_sessions [sample_form_data]
           sample_form_data _ Hrun (list_elem_of_here _ _) Hkept).
Defined.
